(** * regtools, [variants annotate]: the splice-region annotation engine

    A shallow embedding of [src/variants/variants_annotator.cc] and the
    properties its specification states about it.

    Conventions of the embedding.
    - Coordinates and the two distance options are mathematical integers
      ([Z]): [CHRPOS] and the option fields are declared in headers that
      are not part of the translated file, so [+] and [-] are exact.
    - [exons[i]] is the total list lookup [exons !!! i].  Reading a
      [std::vector] out of range is undefined in C++; every read the
      classifier makes on a non-empty list is guarded by the very tests
      that are embedded here, and the lookup yields the zero exon outside
      the list.
    - A procedure that mutates its [AnnotatedVariant&] argument becomes a
      function from the variant before the call to the variant after it.
    - [throw runtime_error(...)] becomes the [Throw] result. *)

From Stdlib Require Import Ascii DecimalString.
From stdpp Require Import base decidable numbers list strings gmap pretty.

#[local] Set Warnings "-clear-no-such-hyp".

Open Scope Z_scope.

(** ** Data model *)

(** Modelled from the spec: [BED] is declared in bedFile.h, outside the
    translated file.  An exon is a "genomic interval {chromosome, start,
    end} using 1-based inclusive coordinates, plus the strand"; these are
    the fields the annotator reads. *)
Record BED := mkBED {
  chrom : string;
  start : Z;
  end_ : Z;
  strand : string
}.

Global Instance BED_inhabited : Inhabited BED :=
  populate (mkBED "" 0 0 "").

(** Modelled from the spec: [AnnotatedVariant] is declared in
    variants_annotator.h, outside the translated file.  It is a [BED]
    (the field [bed]: [variant.end] of the source reads
    [end_ (bed variant)]) with the fields the annotator assigns: the score
    and the label as text, the cis-effect window and the three lists. *)
Record AnnotatedVariant := mkAnnotatedVariant {
  bed : BED;
  score : string;
  annotation : string;
  cis_effect_start : Z;
  cis_effect_end : Z;
  overlapping_genes : string;
  overlapping_transcripts : string;
  overlapping_distances : string
}.

(** Modelled from the spec: the constructor
    [AnnotatedVariant(chr, start, end)] is declared with the type; the
    cis-effect window is "initialized to the variant's own coordinates".
    No property below depends on what the score, the label and the lists
    hold before the first assignment. *)
Definition new_AnnotatedVariant (chr : string) (start1 end1 : Z) : AnnotatedVariant :=
  mkAnnotatedVariant (mkBED chr start1 end1 "") "" "non_splice_region"
                     start1 end1 "NA" "NA" "NA".

(** The option fields of the [VariantsAnnotator] object, as
    [parse_options] assigns them (the class is declared in
    variants_annotator.h). *)
Record VariantsAnnotator := mkVariantsAnnotator {
  intronic_min_distance_ : Z;
  exonic_min_distance_ : Z;
  all_intronic_space_ : bool;
  all_exonic_space_ : bool;
  skip_single_exon_genes_ : bool
}.

(** The defaults printed by [usage]: [-e 3], [-i 2], no [-E], no [-I],
    single exon transcripts skipped. *)
Definition default_options : VariantsAnnotator :=
  mkVariantsAnnotator 2 3 false false true.

(** Modelled from the spec: [common::num_to_str] (common.h) renders the
    distance "as text"; decimal rendering as an output stream does it. *)
Definition num_to_str (n : Z) : string := pretty n.

(** Field assignments on the variant. *)
Definition set_score (variant : AnnotatedVariant) (s : string) : AnnotatedVariant :=
  mkAnnotatedVariant (bed variant) s (annotation variant)
    (cis_effect_start variant) (cis_effect_end variant)
    (overlapping_genes variant) (overlapping_transcripts variant)
    (overlapping_distances variant).

Definition set_annotation (variant : AnnotatedVariant) (a : string) : AnnotatedVariant :=
  mkAnnotatedVariant (bed variant) (score variant) a
    (cis_effect_start variant) (cis_effect_end variant)
    (overlapping_genes variant) (overlapping_transcripts variant)
    (overlapping_distances variant).

Definition set_cis_effect_start (variant : AnnotatedVariant) (x : Z) : AnnotatedVariant :=
  mkAnnotatedVariant (bed variant) (score variant) (annotation variant)
    x (cis_effect_end variant)
    (overlapping_genes variant) (overlapping_transcripts variant)
    (overlapping_distances variant).

Definition set_cis_effect_end (variant : AnnotatedVariant) (x : Z) : AnnotatedVariant :=
  mkAnnotatedVariant (bed variant) (score variant) (annotation variant)
    (cis_effect_start variant) x
    (overlapping_genes variant) (overlapping_transcripts variant)
    (overlapping_distances variant).

(** [exons.size() - 1], for a non-empty vector. *)
Definition last_index (exons : list BED) : nat := (length exons - 1)%nat.

(** ** CisEffectLimitCalculator *)

(** [set_variant_cis_effect_limits_ps], lines 171-194. *)
Definition set_variant_cis_effect_limits_ps
    (exons : list BED) (variant : AnnotatedVariant) (i : nat) : AnnotatedVariant :=
  let variant :=
    if decide (i ≠ 0%nat) then
      if decide (start (exons !!! (i - 1)%nat) < cis_effect_start variant)
      then set_cis_effect_start variant (start (exons !!! (i - 1)%nat))
      else variant
    else
      if decide (start (exons !!! 0%nat) < cis_effect_start variant)
      then set_cis_effect_start variant (start (exons !!! 0%nat))
      else variant in
  if decide (i ≠ last_index exons) then
    if decide (end_ (exons !!! (i + 1)%nat) > cis_effect_end variant)
    then set_cis_effect_end variant (end_ (exons !!! (i + 1)%nat))
    else variant
  else
    if decide (end_ (exons !!! last_index exons) > cis_effect_end variant)
    then set_cis_effect_end variant (end_ (exons !!! last_index exons))
    else variant.

(** [set_variant_cis_effect_limits_ns], lines 198-221. *)
Definition set_variant_cis_effect_limits_ns
    (exons : list BED) (variant : AnnotatedVariant) (i : nat) : AnnotatedVariant :=
  let variant :=
    if decide (i ≠ 0%nat) then
      if decide (end_ (exons !!! (i - 1)%nat) > cis_effect_end variant)
      then set_cis_effect_end variant (end_ (exons !!! (i - 1)%nat))
      else variant
    else
      if decide (end_ (exons !!! 0%nat) > cis_effect_end variant)
      then set_cis_effect_end variant (end_ (exons !!! 0%nat))
      else variant in
  if decide (i ≠ last_index exons) then
    if decide (start (exons !!! (i + 1)%nat) < cis_effect_start variant)
    then set_cis_effect_start variant (start (exons !!! (i + 1)%nat))
    else variant
  else
    if decide (start (exons !!! last_index exons) < cis_effect_start variant)
    then set_cis_effect_start variant (start (exons !!! last_index exons))
    else variant.

(** [set_variant_cis_effect_limits], lines 230-242: the strand of the
    first exon selects the procedure; any other strand leaves the variant
    as it is. *)
Definition set_variant_cis_effect_limits
    (exons : list BED) (variant : AnnotatedVariant) (i : nat) : AnnotatedVariant :=
  let transcript_strand := strand (exons !!! 0%nat) in
  if decide (transcript_strand = "+") then
    set_variant_cis_effect_limits_ps exons variant i
  else if decide (transcript_strand = "-") then
    set_variant_cis_effect_limits_ns exons variant i
  else variant.

(** ** SpliceRegionClassifier *)

(** The labels the classifier writes into [variant.annotation]. *)
Definition non_splice_region : string := "non_splice_region".
Definition exonic : string := "exonic".
Definition intronic : string := "intronic".
Definition splicing_exonic : string := "splicing_exonic".
Definition splicing_intronic : string := "splicing_intronic".

(** [variant.score = num_to_str(min(a, b)); variant.annotation = label]. *)
Definition set_result (variant : AnnotatedVariant) (a b : Z) (label : string)
    : AnnotatedVariant :=
  set_annotation (set_score variant (num_to_str (Z.min a b))) label.

(** A [for] loop whose body may [return]: [body i] is [Some r] when
    iteration [i] returns with the variant [r], and [None] when it falls
    through to the next index; the variant is untouched by an iteration
    that falls through. *)
Fixpoint scan (body : nat → option AnnotatedVariant) (indices : list nat)
    (variant : AnnotatedVariant) : AnnotatedVariant :=
  match indices with
  | [] => variant
  | i :: rest =>
      match body i with
      | Some r => r
      | None => scan body rest variant
      end
  end.

Section Classifier.
Variable self : VariantsAnnotator.
Variable exons : list BED.
Variable variant : AnnotatedVariant.

Let v := end_ (bed variant).
Let intronic_min := intronic_min_distance_ self.
Let exonic_min := exonic_min_distance_ self.

(** *** The '+' strand, lines 327-409 *)

(** Lines 337-356: the [all_exonic_space_] and [all_intronic_space_]
    tests of iteration [i]. *)
Definition ps_whole_space (i : nat) : option AnnotatedVariant :=
  if all_exonic_space_ self &&
     bool_decide (v >= start (exons !!! i) ∧ v <= end_ (exons !!! i))
  then Some (set_result variant (v - start (exons !!! i))
                        (end_ (exons !!! i) - v) exonic)
  else if all_intronic_space_ self &&
     bool_decide (i ≠ last_index exons ∧
                  v > end_ (exons !!! i) ∧ v < start (exons !!! (i + 1)%nat))
  then Some (set_result variant (v - end_ (exons !!! i))
                        (start (exons !!! (i + 1)%nat) - v) intronic)
  else None.

(** Lines 362-405: the four boundary cases of iteration [i], in the
    order of the source. *)
Definition ps_proximity (i : nat) : option AnnotatedVariant :=
  (* exonic near start and not first exon *)
  if bool_decide (i ≠ 0%nat ∧
                  v >= start (exons !!! i) ∧
                  v <= end_ (exons !!! i) ∧
                  v <= start (exons !!! i) + exonic_min)
  then Some (set_variant_cis_effect_limits exons
               (set_result variant (v - start (exons !!! i))
                           (end_ (exons !!! i) - v) splicing_exonic) i)
  (* intronic near start, not exonic in prev exon *)
  else if bool_decide (v < start (exons !!! i) ∧
                       v >= start (exons !!! i) - intronic_min ∧
                       i ≠ 0%nat ∧ v > end_ (exons !!! (i - 1)%nat))
  then Some (set_variant_cis_effect_limits exons
               (set_result variant (v - end_ (exons !!! (i - 1)%nat))
                           (start (exons !!! i) - v) splicing_intronic) i)
  (* exonic near end *)
  else if bool_decide (i ≠ last_index exons ∧
                       v <= end_ (exons !!! i) ∧
                       v >= start (exons !!! i) ∧
                       v >= end_ (exons !!! i) - exonic_min)
  then Some (set_variant_cis_effect_limits exons
               (set_result variant (v - start (exons !!! i))
                           (end_ (exons !!! i) - v) splicing_exonic) i)
  (* intronic near end, not exonic in next exon *)
  else if bool_decide (v > end_ (exons !!! i) ∧
                       v <= end_ (exons !!! i) + intronic_min ∧
                       i ≠ last_index exons ∧
                       v < start (exons !!! (i + 1)%nat))
  then Some (set_variant_cis_effect_limits exons
               (set_result variant (v - end_ (exons !!! i))
                           (start (exons !!! (i + 1)%nat) - v) splicing_intronic) i)
  else None.

(** Line 359: "the rest of the exons are outside the junction - ps". *)
Definition ps_rest_outside (i : nat) : Prop :=
  start (exons !!! i) - intronic_min > v.

(** One iteration of the loop of lines 336-407. *)
Definition ps_iteration (i : nat) : option AnnotatedVariant :=
  match ps_whole_space i with
  | Some r => Some r
  | None =>
      if decide (ps_rest_outside i) then Some variant
      else ps_proximity i
  end.

(** Lines 332-333: "check if variant inside transcript coords for
    positive strand". *)
Definition ps_outside_transcript : Prop :=
  start (exons !!! 0%nat) > v ∨ end_ (exons !!! last_index exons) < v.

(** *** The '-' strand, lines 245-324 *)

(** Lines 255-272. *)
Definition ns_whole_space (i : nat) : option AnnotatedVariant :=
  if all_exonic_space_ self &&
     bool_decide (v >= start (exons !!! i) ∧ v <= end_ (exons !!! i))
  then Some (set_result variant (v - start (exons !!! i))
                        (end_ (exons !!! i) - v) exonic)
  else if all_intronic_space_ self &&
     bool_decide (i ≠ last_index exons ∧
                  v < start (exons !!! i) ∧ v > end_ (exons !!! (i + 1)%nat))
  then Some (set_result variant (v - end_ (exons !!! (i + 1)%nat))
                        (start (exons !!! i) - v) intronic)
  else None.

(** Lines 278-320. *)
Definition ns_proximity (i : nat) : option AnnotatedVariant :=
  (* exonic near start and not last exon *)
  if bool_decide (i ≠ last_index exons ∧
                  v >= start (exons !!! i) ∧
                  v <= end_ (exons !!! i) ∧
                  v <= start (exons !!! i) + exonic_min)
  then Some (set_variant_cis_effect_limits exons
               (set_result variant (v - start (exons !!! i))
                           (end_ (exons !!! i) - v) splicing_exonic) i)
  (* intronic near start, not exonic in next exon *)
  else if bool_decide (v < start (exons !!! i) ∧
                       v >= start (exons !!! i) - intronic_min ∧
                       i ≠ last_index exons ∧
                       v > end_ (exons !!! (i + 1)%nat))
  then Some (set_variant_cis_effect_limits exons
               (set_result variant (v - end_ (exons !!! (i + 1)%nat))
                           (start (exons !!! i) - v) splicing_intronic) i)
  (* exonic near end and not first exon *)
  else if bool_decide (i ≠ 0%nat ∧
                       v <= end_ (exons !!! i) ∧
                       v >= start (exons !!! i) ∧
                       v >= end_ (exons !!! i) - exonic_min)
  then Some (set_variant_cis_effect_limits exons
               (set_result variant (v - start (exons !!! i))
                           (end_ (exons !!! i) - v) splicing_exonic) i)
  (* intronic near end, not exonic in prev exon *)
  else if bool_decide (v > end_ (exons !!! i) ∧
                       v <= end_ (exons !!! i) + intronic_min ∧
                       i ≠ 0%nat ∧
                       v < start (exons !!! (i - 1)%nat))
  then Some (set_variant_cis_effect_limits exons
               (set_result variant (v - end_ (exons !!! i))
                           (start (exons !!! (i - 1)%nat) - v) splicing_intronic) i)
  else None.

(** Line 275: "the rest of the exons are outside the junction - ns". *)
Definition ns_rest_outside (i : nat) : Prop :=
  end_ (exons !!! i) + intronic_min < v.

(** One iteration of the loop of lines 254-322. *)
Definition ns_iteration (i : nat) : option AnnotatedVariant :=
  match ns_whole_space i with
  | Some r => Some r
  | None =>
      if decide (ns_rest_outside i) then Some variant
      else ns_proximity i
  end.

(** Lines 250-251: "check if variant inside transcript coords for
    negative strand". *)
Definition ns_outside_transcript : Prop :=
  start (exons !!! last_index exons) > v ∨ end_ (exons !!! 0%nat) < v.

(** *** The loops without the shortcut

    The specification compares the classifier with the same scan in
    which the "rest of the exons are outside" test is left out; these
    two bodies are the bodies above without that test. *)
Definition ps_iteration_no_shortcut (i : nat) : option AnnotatedVariant :=
  match ps_whole_space i with
  | Some r => Some r
  | None => ps_proximity i
  end.

Definition ns_iteration_no_shortcut (i : nat) : option AnnotatedVariant :=
  match ns_whole_space i with
  | Some r => Some r
  | None => ns_proximity i
  end.
End Classifier.

(** [variant.score = "-1"; variant.annotation = "non_splice_region"], the
    first two statements of both procedures. *)
Definition reset_result (variant : AnnotatedVariant) : AnnotatedVariant :=
  set_annotation (set_score variant "-1") non_splice_region.

(** [get_variant_overlaps_spliceregion_ps], lines 327-409. *)
Definition get_variant_overlaps_spliceregion_ps
    (self : VariantsAnnotator) (exons : list BED) (variant : AnnotatedVariant)
    : AnnotatedVariant :=
  let variant := reset_result variant in
  if decide (ps_outside_transcript exons variant) then variant
  else scan (ps_iteration self exons variant) (seq 0 (length exons)) variant.

(** [get_variant_overlaps_spliceregion_ns], lines 245-324. *)
Definition get_variant_overlaps_spliceregion_ns
    (self : VariantsAnnotator) (exons : list BED) (variant : AnnotatedVariant)
    : AnnotatedVariant :=
  let variant := reset_result variant in
  if decide (ns_outside_transcript exons variant) then variant
  else scan (ns_iteration self exons variant) (seq 0 (length exons)) variant.

(** The two procedures with the shortcut left out of the loop body. *)
Definition classify_ps_no_shortcut
    (self : VariantsAnnotator) (exons : list BED) (variant : AnnotatedVariant)
    : AnnotatedVariant :=
  let variant := reset_result variant in
  if decide (ps_outside_transcript exons variant) then variant
  else scan (ps_iteration_no_shortcut self exons variant)
            (seq 0 (length exons)) variant.

Definition classify_ns_no_shortcut
    (self : VariantsAnnotator) (exons : list BED) (variant : AnnotatedVariant)
    : AnnotatedVariant :=
  let variant := reset_result variant in
  if decide (ns_outside_transcript exons variant) then variant
  else scan (ns_iteration_no_shortcut self exons variant)
            (seq 0 (length exons)) variant.

(** Exceptions: the two [runtime_error]s the core throws. *)
Inductive exn :=
  | UnknownStrand (transcript_strand : string)
  | MissingExons (transcript : string).

(** The message of the thrown [runtime_error]. *)
Definition what (e : exn) : string :=
  match e with
  | UnknownStrand s => "Unknown strand " +:+ s
  | MissingExons t => "Unexpected error. No exons for transcript " +:+ t
  end.

Inductive result (A : Type) :=
  | Ok (a : A)
  | Throw (e : exn).
Arguments Ok {A} a.
Arguments Throw {A} e.

Global Instance result_fmap : FMap result := λ A B f r,
  match r with
  | Ok a => Ok (f a)
  | Throw e => Throw e
  end.

(** [get_variant_overlaps_spliceregion], lines 418-429. *)
Definition get_variant_overlaps_spliceregion
    (self : VariantsAnnotator) (exons : list BED) (variant : AnnotatedVariant)
    : result AnnotatedVariant :=
  let transcript_strand := strand (exons !!! 0%nat) in
  if decide (transcript_strand = "+") then
    Ok (get_variant_overlaps_spliceregion_ps self exons variant)
  else if decide (transcript_strand = "-") then
    Ok (get_variant_overlaps_spliceregion_ns self exons variant)
  else Throw (UnknownStrand transcript_strand).

(** ** VariantAnnotationAggregator *)

(** The part of [GtfParser gtf_] the annotator consumes (the feature store
    is an external collaborator). *)
Record GtfParser := mkGtfParser {
  transcripts_from_bin : string → Z → list string;
  get_exons_from_transcript : string → list BED;
  get_gene_from_transcript : string → string
}.

(** The bin-scheme constants of bedFile.h, shared with the feature store:
    [_binFirstShift], [_binNextShift], [_binLevels] and the table
    [_binOffsetsExtended].  They are not part of the translated file and
    are taken as a parameter. *)
Record BinScheme := mkBinScheme {
  _binFirstShift : Z;
  _binNextShift : Z;
  _binLevels : nat;
  _binOffsetsExtended : list Z
}.

(** The locals of [annotate_record_with_transcripts] that live across the
    loops, lines 434-440. *)
Module Locals.
Record t := mk {
  overlapping_genes : string;
  overlapping_transcripts : string;
  overlapping_distances : string;
  annotations : string;
  unique_genes : gset string;
  variant : AnnotatedVariant
}.
End Locals.

(** Sequencing of code that may throw: [x ← r; k] runs [k] on the value
    of [r] and propagates what [r] throws. *)
Global Instance result_bind : MBind result := λ A B k r,
  match r with
  | Ok a => k a
  | Throw e => Throw e
  end.

(** A [for] loop over a sequence whose body may throw. *)
Fixpoint for_each {A B : Type} (body : A → B → result A) (items : list B) (a : A)
    : result A :=
  match items with
  | [] => Ok a
  | x :: rest => a' ← body a x ; for_each body rest a'
  end.

(** The bins [lo, lo+1, ..., hi] of [for (BIN b = lo; b <= hi; ++b)]. *)
Definition bins_between (lo hi : Z) : list Z :=
  (λ k : nat, lo + Z.of_nat k) <$> seq 0 (Z.to_nat (hi - lo + 1)).

Section Aggregator.
Variable self : VariantsAnnotator.
Variable gtf_ : GtfParser.
Variable scheme : BinScheme.

(** Lines 451-485: the body of the innermost loop, for the candidate
    [transcript = transcripts[i]]. *)
Definition annotate_transcript (l : Locals.t) (transcript : string)
    : result Locals.t :=
  let exons := get_exons_from_transcript gtf_ transcript in
  if decide (length exons = 0%nat) then Throw (MissingExons transcript)
  (* Skip single exon genes *)
  else if skip_single_exon_genes_ self && bool_decide (length exons = 1%nat)
  then Ok l
  else
    variant ← get_variant_overlaps_spliceregion self exons (Locals.variant l) ;
    if decide (annotation variant ≠ "non_splice_region") then
      let gene_id := get_gene_from_transcript gtf_ transcript in
      let annotation := annotation variant in
      let dist_str := score variant in
      if decide (Locals.overlapping_transcripts l ≠ "NA") then
        (* Check if this gene is new *)
        let new_gene := bool_decide (gene_id ∉ Locals.unique_genes l) in
        Ok (Locals.mk
              (if new_gene
               then Locals.overlapping_genes l +:+ ("," +:+ gene_id)
               else Locals.overlapping_genes l)
              (Locals.overlapping_transcripts l +:+ ("," +:+ transcript))
              (Locals.overlapping_distances l +:+ ("," +:+ dist_str))
              (Locals.annotations l +:+ ("," +:+ annotation))
              (if new_gene
               then {[gene_id]} ∪ Locals.unique_genes l
               else Locals.unique_genes l)
              variant)
      else
        Ok (Locals.mk gene_id transcript dist_str annotation
                      ({[gene_id]} ∪ Locals.unique_genes l) variant)
    else
      Ok (Locals.mk (Locals.overlapping_genes l)
                    (Locals.overlapping_transcripts l)
                    (Locals.overlapping_distances l)
                    (Locals.annotations l)
                    (Locals.unique_genes l) variant).

(** Lines 448-487: the loop over the bins of one level. *)
Definition annotate_bins (chr : string) (lo hi : Z) (l : Locals.t)
    : result Locals.t :=
  for_each (λ l b, for_each annotate_transcript
                            (transcripts_from_bin gtf_ chr b) l)
           (bins_between lo hi) l.

(** Lines 446-490: the loop over the levels; [start_bin] and [end_bin]
    are shifted at the end of each round. *)
Fixpoint annotate_levels (chr : string) (levels : list nat)
    (start_bin end_bin : Z) (l : Locals.t) : result Locals.t :=
  match levels with
  | [] => Ok l
  | i :: rest =>
      let offset := _binOffsetsExtended scheme !!! i in
      l' ← annotate_bins chr (start_bin + offset) (end_bin + offset) l ;
      annotate_levels chr rest
        (start_bin ≫ _binNextShift scheme) (end_bin ≫ _binNextShift scheme) l'
  end.

(** Lines 491-495: the accumulated strings are stored in the variant. *)
Definition finish (l : Locals.t) : AnnotatedVariant :=
  mkAnnotatedVariant (bed (Locals.variant l)) (score (Locals.variant l))
    (Locals.annotations l)
    (cis_effect_start (Locals.variant l)) (cis_effect_end (Locals.variant l))
    (Locals.overlapping_genes l) (Locals.overlapping_transcripts l)
    (Locals.overlapping_distances l).

(** Lines 434-440: the locals before the loops; [chr] and [pos] are the
    chromosome name and the 0-based position of [vcf_record_]. *)
Definition initial_locals (chr : string) (pos : Z) : Locals.t :=
  Locals.mk "NA" "NA" "NA" "NA" ∅ (new_AnnotatedVariant chr pos (pos + 1)).

(** [annotate_record_with_transcripts], lines 433-496. *)
Definition annotate_record_with_transcripts (chr : string) (pos : Z)
    : result AnnotatedVariant :=
  let start_bin := (pos - intronic_min_distance_ self) ≫ _binFirstShift scheme in
  let end_bin := (pos + intronic_min_distance_ self) ≫ _binFirstShift scheme in
  l ← annotate_levels chr (seq 0 (_binLevels scheme)) start_bin end_bin
        (initial_locals chr pos) ;
  Ok (finish l).

(** The candidate transcripts in the order in which the three loops
    meet them. *)
Definition bin_candidates (chr : string) (lo hi : Z) : list string :=
  b ← bins_between lo hi; transcripts_from_bin gtf_ chr b.

Fixpoint level_candidates (chr : string) (levels : list nat)
    (start_bin end_bin : Z) : list string :=
  match levels with
  | [] => []
  | i :: rest =>
      let offset := _binOffsetsExtended scheme !!! i in
      bin_candidates chr (start_bin + offset) (end_bin + offset) ++
      level_candidates chr rest
        (start_bin ≫ _binNextShift scheme) (end_bin ≫ _binNextShift scheme)
  end.

Definition candidates (chr : string) (pos : Z) : list string :=
  level_candidates chr (seq 0 (_binLevels scheme))
    ((pos - intronic_min_distance_ self) ≫ _binFirstShift scheme)
    ((pos + intronic_min_distance_ self) ≫ _binFirstShift scheme).
End Aggregator.

(** ** Vocabulary of the statements *)

(** What a classification leaves in the variant: the label and the score. *)
Definition outcome (variant : AnnotatedVariant) : string * string :=
  (annotation variant, score variant).

(** The transcript of the worked scenarios: exons [100,200] and [300,400]. *)
Definition scenario_exons (s : string) : list BED :=
  [mkBED "1" 100 200 s; mkBED "1" 300 400 s].

(** Proximity mode with the thresholds of the scenarios. *)
Definition scenario_options (skip : bool) : VariantsAnnotator :=
  mkVariantsAnnotator 2 3 false false skip.

(** Reflection of coordinates about the midpoint of the transcript: with
    [c] the sum of the two outermost boundaries, [x] goes to [c - x]. *)
Definition reflection_constant (exons : list BED) : Z :=
  start (exons !!! 0%nat) + end_ (exons !!! last_index exons).

(** An exon interval reflected: its end becomes the start and its start
    the end, and the strand becomes '-'. *)
Definition mirror_exon (c : Z) (e : BED) : BED :=
  mkBED (chrom e) (c - end_ e) (c - start e) "-".

(** The mirrored transcript: every exon reflected, exon by exon.  The
    list of a '+' transcript runs from low to high coordinates, so the
    mirrored list runs from high to low. *)
Definition mirror_transcript (exons : list BED) : list BED :=
  mirror_exon (reflection_constant exons) <$> exons.

(** The variant whose working coordinate is the reflected one. *)
Definition mirror_variant (c : Z) (variant : AnnotatedVariant) : AnnotatedVariant :=
  mkAnnotatedVariant
    (mkBED (chrom (bed variant)) (c - end_ (bed variant) - 1)
           (c - end_ (bed variant)) (strand (bed variant)))
    (score variant) (annotation variant)
    (cis_effect_start variant) (cis_effect_end variant)
    (overlapping_genes variant) (overlapping_transcripts variant)
    (overlapping_distances variant).

(** Order of an exon list: ascending by genomic start, as the
    specification describes the stored lists. *)
Definition sorted_by_start (exons : list BED) : Prop :=
  ∀ i j : nat, (i <= j < length exons)%nat →
               start (exons !!! i) <= start (exons !!! j).

(** Descending by genomic end: the order of a mirrored ascending list. *)
Definition sorted_by_end_descending (exons : list BED) : Prop :=
  ∀ i j : nat, (i <= j < length exons)%nat →
               end_ (exons !!! j) <= end_ (exons !!! i).

(** An exon is an interval: its start does not exceed its end. *)
Definition well_formed (exons : list BED) : Prop :=
  ∀ i : nat, (i < length exons)%nat → start (exons !!! i) <= end_ (exons !!! i).

(** A '-' strand list in ascending order of start, as the specification
    describes the stored lists; two of its exons overlap. *)
Definition ascending_minus_exons : list BED :=
  [mkBED "1" 100 400 "-"; mkBED "1" 150 200 "-"; mkBED "1" 160 300 "-"].

(** The candidates that are not single exon transcripts. *)
Definition multi_exon_candidates (gtf_ : GtfParser) (transcripts : list string)
    : list string :=
  filter (λ t, length (get_exons_from_transcript gtf_ t) ≠ 1%nat) transcripts.

(** [covers v1 v2]: the two variants have the same working coordinate and
    the cis-effect window of [v1] contains that of [v2]. *)
Definition covers (v1 v2 : AnnotatedVariant) : Prop :=
  end_ (bed v1) = end_ (bed v2) ∧
  cis_effect_start v1 <= cis_effect_start v2 ∧
  cis_effect_end v2 <= cis_effect_end v1.

(** [same_update exons u1 r1 u2 r2]: [r1] is obtained from [u1] by the
    very assignments by which [r2] is obtained from [u2]: none, a score
    and a label, or a score and a label followed by the cis-effect limits
    at some exon. *)
Definition same_update (exons : list BED) (u1 r1 u2 r2 : AnnotatedVariant) : Prop :=
  (r1 = u1 ∧ r2 = u2) ∨
  (∃ a b label,
     r1 = set_result u1 a b label ∧ r2 = set_result u2 a b label) ∨
  (∃ a b label i,
     r1 = set_variant_cis_effect_limits exons (set_result u1 a b label) i ∧
     r2 = set_variant_cis_effect_limits exons (set_result u2 a b label) i).

(** The same relation between what two iterations did. *)
Definition same_step (exons : list BED) (u1 u2 : AnnotatedVariant)
    (o1 o2 : option AnnotatedVariant) : Prop :=
  match o1, o2 with
  | Some r1, Some r2 => same_update exons u1 r1 u2 r2
  | None, None => True
  | _, _ => False
  end.

(** A bin scheme of seven levels for the examples. *)
Definition example_scheme : BinScheme :=
  mkBinScheme 14 3 7
    [32678 + 4096 + 512 + 64 + 8 + 1; 4096 + 512 + 64 + 8 + 1;
     512 + 64 + 8 + 1; 64 + 8 + 1; 8 + 1; 1; 0].

(** A feature store for the examples: the transcripts [ids] all lie in the
    finest bin of the first 16384 positions of the chromosome and belong to
    gene "G1"; the transcript "S" has the single exon [100,200], every
    other one the two exons of the scenarios on the '+' strand. *)
Definition example_store (ids : list string) : GtfParser :=
  mkGtfParser
    (λ chr b, if decide (b = 32678 + 4096 + 512 + 64 + 8 + 1) then ids else [])
    (λ t, if decide (t = "S") then [mkBED "1" 100 200 "+"]
          else scenario_exons "+")
    (λ t, "G1").

(** The four lists of an annotated record. *)
Definition lists (variant : AnnotatedVariant) : string * string * string * string :=
  (overlapping_genes variant, overlapping_transcripts variant,
   overlapping_distances variant, annotation variant).

(** The text of a list as the aggregator builds it: "NA" for no entry,
    else the entries joined by commas in the order of arrival. *)
Definition comma_joined (items : list string) : string :=
  match items with
  | [] => "NA"
  | x :: rest => foldl (λ acc y, acc +:+ ("," +:+ y)) x rest
  end.

(** The distinct elements of a list in the order of their first
    occurrence. *)
Definition first_seen (items : list string) : list string :=
  foldl (λ seen g, if decide (g ∈ seen) then seen else seen ++ [g]) [] items.

(** What one candidate contributes to the lists of a record. *)
Record contribution := mkContribution {
  c_gene : string;
  c_transcript : string;
  c_distance : string;
  c_annotation : string
}.

(** The contribution of the candidate [transcript], from the
    classification of the variant [fresh] against it alone: none when the
    candidate is skipped or is not splice relevant. *)
Definition contribution_of (self : VariantsAnnotator) (gtf_ : GtfParser)
    (fresh : AnnotatedVariant) (transcript : string) : option contribution :=
  let exons := get_exons_from_transcript gtf_ transcript in
  if skip_single_exon_genes_ self && bool_decide (length exons = 1%nat) then None
  else
    match get_variant_overlaps_spliceregion self exons fresh with
    | Ok r =>
        if decide (annotation r ≠ "non_splice_region")
        then Some (mkContribution (get_gene_from_transcript gtf_ transcript)
                                  transcript (score r) (annotation r))
        else None
    | Throw _ => None
    end.

(** The locals hold the lists of the contributions [cs]. *)
Definition holds (coordinate : Z) (cs : list contribution) (l : Locals.t) : Prop :=
  end_ (bed (Locals.variant l)) = coordinate ∧
  Locals.unique_genes l = list_to_set (c_gene <$> cs) ∧
  Locals.overlapping_genes l = comma_joined (first_seen (c_gene <$> cs)) ∧
  Locals.overlapping_transcripts l = comma_joined (c_transcript <$> cs) ∧
  Locals.overlapping_distances l = comma_joined (c_distance <$> cs) ∧
  Locals.annotations l = comma_joined (c_annotation <$> cs).

(** A boundary case that fires stores a score between 0 and the threshold
    of its kind. *)
Definition bounded_match (self : VariantsAnnotator) (exons : list BED)
    (variant r : AnnotatedVariant) (i : nat) : Prop :=
  ∃ a b label,
    r = set_variant_cis_effect_limits exons (set_result variant a b label) i ∧
    0 <= Z.min a b ∧
    ((label = splicing_exonic ∧ Z.min a b <= exonic_min_distance_ self) ∨
     (label = splicing_intronic ∧ Z.min a b <= intronic_min_distance_ self)).

(** ** Vocabulary of the further properties *)

(** The ways in which iteration [i] of the '+' loop can decide, as
    geometry of the working coordinate [v]: the label, and the two
    distances [a] and [b] whose minimum is the score. *)
Definition ps_case (self : VariantsAnnotator) (exons : list BED) (v : Z)
    (i : nat) (label : string) (a b : Z) : Prop :=
  (label = exonic ∧ all_exonic_space_ self = true ∧
   start (exons !!! i) <= v <= end_ (exons !!! i) ∧
   a = v - start (exons !!! i) ∧ b = end_ (exons !!! i) - v) ∨
  (label = intronic ∧ all_intronic_space_ self = true ∧
   i ≠ last_index exons ∧
   end_ (exons !!! i) < v < start (exons !!! (i + 1)%nat) ∧
   a = v - end_ (exons !!! i) ∧ b = start (exons !!! (i + 1)%nat) - v) ∨
  (label = splicing_exonic ∧ all_exonic_space_ self = false ∧
   start (exons !!! i) <= v <= end_ (exons !!! i) ∧
   ((i ≠ 0%nat ∧ v <= start (exons !!! i) + exonic_min_distance_ self) ∨
    (i ≠ last_index exons ∧ end_ (exons !!! i) - exonic_min_distance_ self <= v)) ∧
   a = v - start (exons !!! i) ∧ b = end_ (exons !!! i) - v) ∨
  (label = splicing_intronic ∧ i ≠ 0%nat ∧
   end_ (exons !!! (i - 1)%nat) < v < start (exons !!! i) ∧
   start (exons !!! i) - intronic_min_distance_ self <= v ∧
   a = v - end_ (exons !!! (i - 1)%nat) ∧ b = start (exons !!! i) - v) ∨
  (label = splicing_intronic ∧ all_intronic_space_ self = false ∧
   i ≠ last_index exons ∧
   end_ (exons !!! i) < v < start (exons !!! (i + 1)%nat) ∧
   v <= end_ (exons !!! i) + intronic_min_distance_ self ∧
   a = v - end_ (exons !!! i) ∧ b = start (exons !!! (i + 1)%nat) - v).

(** The same for the '-' loop, whose list runs from high to low
    coordinates: the intron after exon [i] in the list lies below it. *)
Definition ns_case (self : VariantsAnnotator) (exons : list BED) (v : Z)
    (i : nat) (label : string) (a b : Z) : Prop :=
  (label = exonic ∧ all_exonic_space_ self = true ∧
   start (exons !!! i) <= v <= end_ (exons !!! i) ∧
   a = v - start (exons !!! i) ∧ b = end_ (exons !!! i) - v) ∨
  (label = intronic ∧ all_intronic_space_ self = true ∧
   i ≠ last_index exons ∧
   end_ (exons !!! (i + 1)%nat) < v < start (exons !!! i) ∧
   a = v - end_ (exons !!! (i + 1)%nat) ∧ b = start (exons !!! i) - v) ∨
  (label = splicing_exonic ∧ all_exonic_space_ self = false ∧
   start (exons !!! i) <= v <= end_ (exons !!! i) ∧
   ((i ≠ last_index exons ∧ v <= start (exons !!! i) + exonic_min_distance_ self) ∨
    (i ≠ 0%nat ∧ end_ (exons !!! i) - exonic_min_distance_ self <= v)) ∧
   a = v - start (exons !!! i) ∧ b = end_ (exons !!! i) - v) ∨
  (label = splicing_intronic ∧ all_intronic_space_ self = false ∧
   i ≠ last_index exons ∧
   end_ (exons !!! (i + 1)%nat) < v < start (exons !!! i) ∧
   start (exons !!! i) - intronic_min_distance_ self <= v ∧
   a = v - end_ (exons !!! (i + 1)%nat) ∧ b = start (exons !!! i) - v) ∨
  (label = splicing_intronic ∧ i ≠ 0%nat ∧
   end_ (exons !!! i) < v < start (exons !!! (i - 1)%nat) ∧
   v <= end_ (exons !!! i) + intronic_min_distance_ self ∧
   a = v - end_ (exons !!! i) ∧ b = start (exons !!! (i - 1)%nat) - v).

(** What an iteration that decides leaves: the score and the label, and
    for the two splicing labels the cis-effect limits at exon [i]. *)
Definition decided (exons : list BED) (u : AnnotatedVariant) (i : nat)
    (label : string) (a b : Z) : AnnotatedVariant :=
  if decide (label = splicing_exonic ∨ label = splicing_intronic)
  then set_variant_cis_effect_limits exons (set_result u a b label) i
  else set_result u a b label.

(** The window of [variant] extended to reach [lo] and [hi], when limits
    are given. *)
Definition widen_by (variant : AnnotatedVariant) (limits : option (Z * Z))
    : AnnotatedVariant :=
  match limits with
  | None => variant
  | Some (lo, hi) =>
      set_cis_effect_end
        (set_cis_effect_start variant (Z.min (cis_effect_start variant) lo))
        (Z.max (cis_effect_end variant) hi)
  end.

(** The exon before and the exon after exon [i] in the list, where the
    first exon counts as its own predecessor and the last as its own
    successor. *)
Definition exon_before (exons : list BED) (i : nat) : BED :=
  exons !!! (i - 1)%nat.

Definition exon_after (exons : list BED) (i : nat) : BED :=
  exons !!! (Nat.min (i + 1) (last_index exons)).

(** The limits the calculator reaches for at exon [i]: on '+' the start of
    the exon before and the end of the exon after, on '-' the start of the
    exon after and the end of the exon before, none on any other strand. *)
Definition cis_limits_at (exons : list BED) (i : nat) : option (Z * Z) :=
  if decide (strand (exons !!! 0%nat) = "+") then
    Some (start (exon_before exons i), end_ (exon_after exons i))
  else if decide (strand (exons !!! 0%nat) = "-") then
    Some (start (exon_after exons i), end_ (exon_before exons i))
  else None.

(** The exons of a '+' list follow one another without overlap: each
    ends before the next one starts. *)
Definition disjoint_ascending (exons : list BED) : Prop :=
  ∀ i : nat, (i + 1 < length exons)%nat →
             end_ (exons !!! i) < start (exons !!! (i + 1)%nat).

(** The exons of a '-' list follow one another from high to low
    coordinates without overlap: each starts after the next one ends. *)
Definition disjoint_descending (exons : list BED) : Prop :=
  ∀ i : nat, (i + 1 < length exons)%nat →
             end_ (exons !!! (i + 1)%nat) < start (exons !!! i).

(** An exon and a variant moved by [d] bases along the chromosome; the
    window of the variant moves with it. *)
Definition shift_exon (d : Z) (e : BED) : BED :=
  mkBED (chrom e) (start e + d) (end_ e + d) (strand e).

Definition shift_variant (d : Z) (variant : AnnotatedVariant) : AnnotatedVariant :=
  mkAnnotatedVariant
    (mkBED (chrom (bed variant)) (start (bed variant) + d)
           (end_ (bed variant) + d) (strand (bed variant)))
    (score variant) (annotation variant)
    (cis_effect_start variant + d) (cis_effect_end variant + d)
    (overlapping_genes variant) (overlapping_transcripts variant)
    (overlapping_distances variant).

(** ** The window of a record *)

(** [classified_from self gtf_ variant transcript w]: the loop body does not
    skip [transcript], and the classification of [variant] against the
    exons of [transcript] returns [w]. *)
Definition classified_from (self : VariantsAnnotator) (gtf_ : GtfParser)
    (variant : AnnotatedVariant) (transcript : string) (w : AnnotatedVariant)
    : Prop :=
  ¬ (skip_single_exon_genes_ self = true ∧
     length (get_exons_from_transcript gtf_ transcript) = 1%nat) ∧
  get_variant_overlaps_spliceregion self
    (get_exons_from_transcript gtf_ transcript) variant = Ok w.

(** [hull_of self gtf_ fresh seen v]: the window of [v] is the smallest one
    that contains the window of [fresh] and the windows that the
    transcripts of [seen] give to [fresh], each on its own. *)
Definition hull_of (self : VariantsAnnotator) (gtf_ : GtfParser)
    (fresh : AnnotatedVariant) (seen : list string) (v : AnnotatedVariant)
    : Prop :=
  covers v fresh ∧
  (∀ transcript w,
     transcript ∈ seen → classified_from self gtf_ fresh transcript w →
     covers v w) ∧
  (cis_effect_start v = cis_effect_start fresh ∨
   ∃ transcript w,
     transcript ∈ seen ∧ classified_from self gtf_ fresh transcript w ∧
     cis_effect_start v = cis_effect_start w) ∧
  (cis_effect_end v = cis_effect_end fresh ∨
   ∃ transcript w,
     transcript ∈ seen ∧ classified_from self gtf_ fresh transcript w ∧
     cis_effect_end v = cis_effect_end w).

(** ** Command line options *)

(** The fields of the [VariantsAnnotator] object that [parse_options]
    assigns: the five options of the core and the three file names. *)
Record CommandLine := mkCommandLine {
  options : VariantsAnnotator;
  vcf_ : string;
  gtffile_ : string;
  vcf_out_ : string
}.

(** What [parse_options] throws: the help exception with the usage text,
    and the two [runtime_error]s "Error parsing inputs!(1)" and
    "Error parsing inputs!(2)". *)
Inductive parse_exn :=
  | cmdline_help_exception (usage_text : string)
  | error_parsing_inputs_1
  | error_parsing_inputs_2.

Inductive parsed (A : Type) :=
  | Parsed (a : A)
  | Raised (e : parse_exn).
Arguments Parsed {A} a.
Arguments Raised {A} e.

Section ParseOptions.
(** [atoi] of the C library and the text [usage] writes are parameters. *)
Variable atoi : string → Z.
Variable usage_text : string.

(** Lines 56-81: the [switch] on the option character [c] that [getopt]
    returned, [optarg] being the argument of the option. *)
Definition parse_option (self : CommandLine) (c : ascii) (optarg : string)
    : parsed CommandLine :=
  let o := options self in
  if decide (c = "i"%char) then
    Parsed (mkCommandLine
              (mkVariantsAnnotator (atoi optarg) (exonic_min_distance_ o)
                 (all_intronic_space_ o) (all_exonic_space_ o)
                 (skip_single_exon_genes_ o))
              (vcf_ self) (gtffile_ self) (vcf_out_ self))
  else if decide (c = "e"%char) then
    Parsed (mkCommandLine
              (mkVariantsAnnotator (intronic_min_distance_ o) (atoi optarg)
                 (all_intronic_space_ o) (all_exonic_space_ o)
                 (skip_single_exon_genes_ o))
              (vcf_ self) (gtffile_ self) (vcf_out_ self))
  else if decide (c = "I"%char) then
    Parsed (mkCommandLine
              (mkVariantsAnnotator (intronic_min_distance_ o) (exonic_min_distance_ o)
                 true (all_exonic_space_ o) (skip_single_exon_genes_ o))
              (vcf_ self) (gtffile_ self) (vcf_out_ self))
  else if decide (c = "E"%char) then
    Parsed (mkCommandLine
              (mkVariantsAnnotator (intronic_min_distance_ o) (exonic_min_distance_ o)
                 (all_intronic_space_ o) true (skip_single_exon_genes_ o))
              (vcf_ self) (gtffile_ self) (vcf_out_ self))
  else if decide (c = "o"%char) then
    Parsed (mkCommandLine o (vcf_ self) (gtffile_ self) optarg)
  else if decide (c = "S"%char) then
    Parsed (mkCommandLine
              (mkVariantsAnnotator (intronic_min_distance_ o) (exonic_min_distance_ o)
                 (all_intronic_space_ o) (all_exonic_space_ o) false)
              (vcf_ self) (gtffile_ self) (vcf_out_ self))
  else if decide (c = "h"%char) then Raised (cmdline_help_exception usage_text)
  else Raised error_parsing_inputs_1.

(** Lines 55-82: the [while] loop over what [getopt] returns, one pair of
    option character and argument per round, until it returns -1. *)
Fixpoint parse_option_loop (self : CommandLine) (returned : list (ascii * string))
    : parsed CommandLine :=
  match returned with
  | [] => Parsed self
  | (c, optarg) :: rest =>
      match parse_option self c optarg with
      | Parsed self' => parse_option_loop self' rest
      | Raised e => Raised e
      end
  end.

(** Lines 83-93: [remaining] are the arguments from [argv[optind]] on when
    [getopt] has returned -1. *)
Definition take_file_names (self : CommandLine) (remaining : list string)
    : parsed CommandLine :=
  let '(self, remaining) :=
    match remaining with
    | vcf :: gtf :: rest =>
        (mkCommandLine (options self) vcf gtf (vcf_out_ self), rest)
    | _ => (self, remaining)
    end in
  if decide (remaining ≠ [] ∨ vcf_ self = "NA" ∨ gtffile_ self = "NA")
  then Raised error_parsing_inputs_2
  else Parsed self.

(** [parse_options], lines 51-109, on what [getopt] returns for the given
    [argv]: the options in the order of their return and the arguments
    that remain.  What the function prints is not part of the model. *)
Definition parse_options (self : CommandLine)
    (returned : list (ascii * string)) (remaining : list string)
    : parsed CommandLine :=
  match parse_option_loop self returned with
  | Parsed self' => take_file_names self' remaining
  | Raised e => Raised e
  end.
End ParseOptions.

(** The option characters [parse_options] accepts. *)
Definition accepted_option (c : ascii) : Prop :=
  c ∈ ["i"; "e"; "I"; "E"; "o"; "S"]%char.

(** The argument of the last option [c] that [getopt] returned, if any. *)
Definition last_argument (c : ascii) (returned : list (ascii * string))
    : option string :=
  snd <$> last (filter (λ co, co.1 = c) returned).

(** Whether [getopt] returned the option [c]. *)
Definition given (c : ascii) (returned : list (ascii * string)) : bool :=
  bool_decide (c ∈ returned.*1).
(** The file names are in place when [getopt] is through: either exactly
    two arguments remain and neither is the placeholder, or none remains
    and the object already holds two names. *)
Definition file_names_given (self : CommandLine) (remaining : list string) : Prop :=
  (∃ vcf gtf, remaining = [vcf; gtf] ∧ vcf ≠ "NA" ∧ gtf ≠ "NA") ∨
  (remaining = [] ∧ vcf_ self ≠ "NA" ∧ gtffile_ self ≠ "NA").

(** * Properties *)

(** ** The cis-effect window *)

Ltac cis_cases :=
  unfold set_variant_cis_effect_limits, set_variant_cis_effect_limits_ps,
    set_variant_cis_effect_limits_ns;
  repeat case_decide; simpl in *; try lia.

Lemma cis_limits_ps_widen exons variant i :
  cis_effect_start (set_variant_cis_effect_limits_ps exons variant i)
    <= cis_effect_start variant ∧
  cis_effect_end variant
    <= cis_effect_end (set_variant_cis_effect_limits_ps exons variant i).
Proof. cis_cases. Qed.

Lemma cis_limits_ns_widen exons variant i :
  cis_effect_start (set_variant_cis_effect_limits_ns exons variant i)
    <= cis_effect_start variant ∧
  cis_effect_end variant
    <= cis_effect_end (set_variant_cis_effect_limits_ns exons variant i).
Proof. cis_cases. Qed.

Lemma cis_limits_widen exons variant i :
  cis_effect_start (set_variant_cis_effect_limits exons variant i)
    <= cis_effect_start variant ∧
  cis_effect_end variant
    <= cis_effect_end (set_variant_cis_effect_limits exons variant i).
Proof. cis_cases. Qed.

(** The calculator touches nothing but the two window fields. *)
Lemma cis_limits_frame exons variant i :
  bed (set_variant_cis_effect_limits exons variant i) = bed variant ∧
  score (set_variant_cis_effect_limits exons variant i) = score variant ∧
  annotation (set_variant_cis_effect_limits exons variant i) = annotation variant.
Proof. cis_cases; auto. Qed.

(** C8. The cis-effect limit calculator only widens the window: after the
    call, whatever the strand of the exon list and whatever the index [i],
    [cis_effect_start] is at most its prior value and [cis_effect_end] at
    least its prior value.  At the first exon the missing previous
    neighbour is exon 0 itself and at the last exon the missing next
    neighbour is the last exon itself, so on that side the window reaches
    exactly as far as that exon's own boundary (its start for the lower
    side and its end for the upper side on '+'; the '-' procedure takes the
    end of exon 0 and the start of the last exon). *)
Theorem cis_effect_limits_only_widen (exons : list BED) (variant : AnnotatedVariant) (i : nat) :
  (cis_effect_start (set_variant_cis_effect_limits exons variant i)
     <= cis_effect_start variant ∧
   cis_effect_end (set_variant_cis_effect_limits exons variant i)
     >= cis_effect_end variant) ∧
  (cis_effect_start (set_variant_cis_effect_limits_ps exons variant i)
     <= cis_effect_start variant ∧
   cis_effect_end (set_variant_cis_effect_limits_ps exons variant i)
     >= cis_effect_end variant) ∧
  (cis_effect_start (set_variant_cis_effect_limits_ns exons variant i)
     <= cis_effect_start variant ∧
   cis_effect_end (set_variant_cis_effect_limits_ns exons variant i)
     >= cis_effect_end variant) ∧
  cis_effect_start (set_variant_cis_effect_limits_ps exons variant 0)
    = Z.min (cis_effect_start variant) (start (exons !!! 0%nat)) ∧
  cis_effect_end (set_variant_cis_effect_limits_ps exons variant (last_index exons))
    = Z.max (cis_effect_end variant) (end_ (exons !!! last_index exons)) ∧
  cis_effect_end (set_variant_cis_effect_limits_ns exons variant 0)
    = Z.max (cis_effect_end variant) (end_ (exons !!! 0%nat)) ∧
  cis_effect_start (set_variant_cis_effect_limits_ns exons variant (last_index exons))
    = Z.min (cis_effect_start variant) (start (exons !!! last_index exons)).
Proof.
  pose proof (cis_limits_widen exons variant i).
  pose proof (cis_limits_ps_widen exons variant i).
  pose proof (cis_limits_ns_widen exons variant i).
  repeat split; try lia; cis_cases.
Qed.

(** ** Worked scenarios *)

(** C3. On the '+' strand transcript with exons [100,200] and [300,400],
    in proximity mode with [exonic_min_distance = 3] and
    [intronic_min_distance = 2]: working coordinate 199 is
    [splicing_exonic] with score 1, 202 is [splicing_intronic] with score
    2, and 250 is [non_splice_region] with score -1. *)
Theorem worked_scenarios_plus_strand (skip : bool) (chr : string) :
  outcome <$> get_variant_overlaps_spliceregion (scenario_options skip)
                (scenario_exons "+") (new_AnnotatedVariant chr 198 199)
  = Ok ("splicing_exonic", "1")%string ∧
  outcome <$> get_variant_overlaps_spliceregion (scenario_options skip)
                (scenario_exons "+") (new_AnnotatedVariant chr 201 202)
  = Ok ("splicing_intronic", "2")%string ∧
  outcome <$> get_variant_overlaps_spliceregion (scenario_options skip)
                (scenario_exons "+") (new_AnnotatedVariant chr 249 250)
  = Ok ("non_splice_region", "-1")%string.
Proof. repeat split. Qed.

(** ** The out-of-transcript short-circuit *)

Lemma outcome_reset_result variant :
  outcome (reset_result variant) = ("non_splice_region", "-1")%string.
Proof. reflexivity. Qed.

Lemma end_reset_result variant :
  end_ (bed (reset_result variant)) = end_ (bed variant).
Proof. reflexivity. Qed.

Lemma lookup_total_head (exons : list BED) e :
  head exons = Some e → exons !!! 0%nat = e.
Proof. rewrite head_lookup. apply list_lookup_total_correct. Qed.

Lemma lookup_total_last (exons : list BED) e :
  last exons = Some e → exons !!! last_index exons = e.
Proof.
  rewrite last_lookup. unfold last_index. rewrite Nat.sub_1_r.
  apply list_lookup_total_correct.
Qed.

(** C2. For a non-empty exon list with first listed exon [first_exon] and
    last listed exon [last_exon]: the '+' procedure returns
    [non_splice_region] with score -1, without looking at any exon, when
    the working coordinate is below the start of the first exon or above
    the end of the last exon, and hands the classification to the exon
    scan when it is not; the '-' procedure does the same with the
    outermost boundaries of its own orientation, the start of the last
    listed exon and the end of the first listed exon. *)
Theorem out_of_transcript_short_circuit
    (self : VariantsAnnotator) (exons : list BED) (variant : AnnotatedVariant)
    (first_exon last_exon : BED) :
  head exons = Some first_exon →
  last exons = Some last_exon →
  let v := end_ (bed variant) in
  let cleared := reset_result variant in
  outcome cleared = ("non_splice_region", "-1")%string ∧
  (v < start first_exon ∨ end_ last_exon < v →
     get_variant_overlaps_spliceregion_ps self exons variant = cleared) ∧
  (start first_exon <= v <= end_ last_exon →
     get_variant_overlaps_spliceregion_ps self exons variant
     = scan (ps_iteration self exons cleared) (seq 0 (length exons)) cleared) ∧
  (v < start last_exon ∨ end_ first_exon < v →
     get_variant_overlaps_spliceregion_ns self exons variant = cleared) ∧
  (start last_exon <= v <= end_ first_exon →
     get_variant_overlaps_spliceregion_ns self exons variant
     = scan (ns_iteration self exons cleared) (seq 0 (length exons)) cleared).
Proof.
  intros Hfirst Hlast v cleared.
  apply lookup_total_head in Hfirst. apply lookup_total_last in Hlast.
  unfold get_variant_overlaps_spliceregion_ps,
    get_variant_overlaps_spliceregion_ns,
    ps_outside_transcript, ns_outside_transcript.
  rewrite Hfirst, Hlast, end_reset_result. fold v. fold cleared.
  split; [reflexivity|].
  repeat split; intros Hv; case_decide; try reflexivity; lia.
Qed.

Lemma out_of_transcript_short_circuit_witness :
  let exons := scenario_exons "+" in
  let variant := new_AnnotatedVariant "1" 449 450 in
  get_variant_overlaps_spliceregion_ps default_options exons variant
  = reset_result variant.
Proof.
  intros exons variant.
  refine (proj1 (proj2 (out_of_transcript_short_circuit default_options exons
            variant (mkBED "1" 100 200 "+") (mkBED "1" 300 400 "+") _ _)) _).
  - reflexivity.
  - reflexivity.
  - simpl. lia.
Defined.

(** ** The score bound of proximity mode *)

(** The scan returns either the untouched variant or what one of its
    iterations returned. *)
Lemma scan_cases body indices variant :
  scan body indices variant = variant ∨
  ∃ i, i ∈ indices ∧ body i = Some (scan body indices variant).
Proof.
  induction indices as [|i rest IH]; simpl; [by left|].
  destruct (body i) as [r|] eqn:Hi.
  - right. exists i. split; [left|done].
  - destruct IH as [->|(j & Hj & Hr)]; [by left|].
    right. exists j. split; [by right|done].
Qed.

Ltac fire_match :=
  eexists _, _, _; split; [reflexivity|]; split; [lia|];
  first [left; split; [reflexivity|lia] | right; split; [reflexivity|lia]].

Lemma ps_proximity_bounded self exons variant i r :
  ps_proximity self exons variant i = Some r →
  bounded_match self exons variant r i.
Proof.
  unfold ps_proximity.
  repeat case_bool_decide; intros [= <-]; fire_match.
Qed.

Lemma ns_proximity_bounded self exons variant i r :
  ns_proximity self exons variant i = Some r →
  bounded_match self exons variant r i.
Proof.
  unfold ns_proximity.
  repeat case_bool_decide; intros [= <-]; fire_match.
Qed.

Lemma score_set_result variant a b label :
  score (set_result variant a b label) = num_to_str (Z.min a b).
Proof. reflexivity. Qed.

Lemma annotation_set_result variant a b label :
  annotation (set_result variant a b label) = label.
Proof. reflexivity. Qed.

Lemma bounded_match_score self exons variant r i :
  bounded_match self exons variant r i →
  ∃ n, score r = num_to_str n ∧
       0 <= n <= Z.max (exonic_min_distance_ self) (intronic_min_distance_ self).
Proof.
  intros (a & b & label & -> & Hlo & Hhi).
  exists (Z.min a b).
  destruct (cis_limits_frame exons (set_result variant a b label) i) as (_ & -> & _).
  rewrite score_set_result. split; [done|lia].
Qed.

Lemma ps_iteration_proximity_mode self exons variant i r :
  all_exonic_space_ self = false →
  all_intronic_space_ self = false →
  ps_iteration self exons variant i = Some r →
  r = variant ∨ bounded_match self exons variant r i.
Proof.
  intros HE HI. unfold ps_iteration, ps_whole_space. rewrite HE, HI. simpl.
  case_decide; [intros [= <-]; by left|].
  intros Hr. right. by apply ps_proximity_bounded.
Qed.

Lemma ns_iteration_proximity_mode self exons variant i r :
  all_exonic_space_ self = false →
  all_intronic_space_ self = false →
  ns_iteration self exons variant i = Some r →
  r = variant ∨ bounded_match self exons variant r i.
Proof.
  intros HE HI. unfold ns_iteration, ns_whole_space. rewrite HE, HI. simpl.
  case_decide; [intros [= <-]; by left|].
  intros Hr. right. by apply ns_proximity_bounded.
Qed.

(** C5. In proximity mode (both whole-space flags off), for every exon
    list and variant and for both procedures: when the score the
    classifier leaves is not "-1", it is the decimal text of an integer
    [n] with [0 <= n <= max(exonic_min_distance, intronic_min_distance)]. *)
Theorem proximity_score_bound
    (self : VariantsAnnotator) (exons : list BED) (variant : AnnotatedVariant) :
  all_exonic_space_ self = false →
  all_intronic_space_ self = false →
  ∀ r, r = get_variant_overlaps_spliceregion_ps self exons variant ∨
       r = get_variant_overlaps_spliceregion_ns self exons variant →
  score r ≠ "-1" →
  ∃ n, score r = num_to_str n ∧
       0 <= n <= Z.max (exonic_min_distance_ self) (intronic_min_distance_ self).
Proof.
  intros HE HI r Hr Hscore.
  assert (r = reset_result variant ∨
          ∃ i, bounded_match self exons (reset_result variant) r i) as [->|[i Hm]].
  { destruct Hr as [-> | ->];
      unfold get_variant_overlaps_spliceregion_ps,
        get_variant_overlaps_spliceregion_ns;
      (case_decide; [by left|]).
    - destruct (scan_cases (ps_iteration self exons (reset_result variant))
                  (seq 0 (length exons)) (reset_result variant))
        as [->|(i & _ & Hi)]; [by left|].
      apply ps_iteration_proximity_mode in Hi as [->|Hm]; eauto.
    - destruct (scan_cases (ns_iteration self exons (reset_result variant))
                  (seq 0 (length exons)) (reset_result variant))
        as [->|(i & _ & Hi)]; [by left|].
      apply ns_iteration_proximity_mode in Hi as [->|Hm]; eauto. }
  - by destruct Hscore.
  - by eapply bounded_match_score.
Qed.

Lemma proximity_score_bound_witness :
  ∃ n, score (get_variant_overlaps_spliceregion_ps default_options
                (scenario_exons "+") (new_AnnotatedVariant "1" 198 199))
       = num_to_str n ∧ 0 <= n <= Z.max 3 2.
Proof.
  apply (proximity_score_bound default_options (scenario_exons "+")
           (new_AnnotatedVariant "1" 198 199)
           eq_refl eq_refl _ (or_introl eq_refl)).
  vm_compute. discriminate.
Defined.

(** ** Strand symmetry *)

Lemma outcome_cis_limits exons variant i :
  outcome (set_variant_cis_effect_limits exons variant i) = outcome variant.
Proof.
  unfold outcome.
  by destruct (cis_limits_frame exons variant i) as (_ & -> & ->).
Qed.

Lemma outcome_set_result variant a b label :
  outcome (set_result variant a b label) = (label, num_to_str (Z.min a b)).
Proof. reflexivity. Qed.

Lemma end_set_result variant a b label :
  end_ (bed (set_result variant a b label)) = end_ (bed variant).
Proof. reflexivity. Qed.

(** Two scans whose iterations agree on the outcome agree on the outcome. *)
Lemma scan_outcome_ext body1 body2 indices variant1 variant2 :
  (∀ i, i ∈ indices → outcome <$> body1 i = outcome <$> body2 i) →
  outcome variant1 = outcome variant2 →
  outcome (scan body1 indices variant1) = outcome (scan body2 indices variant2).
Proof.
  intros Hbody Hv. induction indices as [|i rest IH]; simpl; [done|].
  pose proof (Hbody i (list_elem_of_here _ _)) as Hi.
  destruct (body1 i), (body2 i); simpl in Hi; try discriminate.
  - by apply (inj Some).
  - apply IH. intros j Hj. apply Hbody. by right.
Qed.

Lemma mirror_lookup c (exons : list BED) i :
  (i < length exons)%nat →
  (mirror_exon c <$> exons) !!! i = mirror_exon c (exons !!! i).
Proof. apply list_lookup_total_fmap. Qed.

Lemma last_index_mirror c exons :
  last_index (mirror_exon c <$> exons) = last_index exons.
Proof. unfold last_index. by rewrite length_fmap. Qed.

Ltac settle_outcome :=
  simpl; rewrite ?outcome_cis_limits, ?outcome_set_result;
  first [ done
        | exfalso; lia
        | do 2 f_equal; f_equal; lia ].

Section Symmetry.
Variable self : VariantsAnnotator.
Variable exons : list BED.
Variables variant variant' : AnnotatedVariant.
Variable c : Z.
Variable i : nat.
Hypothesis Hi : (i < length exons)%nat.
Hypothesis Hend : end_ (bed variant') = c - end_ (bed variant).
Hypothesis Hwf : start (exons !!! i) <= end_ (exons !!! i).

Local Abbreviation mirrored := (mirror_exon c <$> exons).

Lemma mirror_lookup_prev :
  mirrored !!! (i - 1)%nat = mirror_exon c (exons !!! (i - 1)%nat).
Proof. apply mirror_lookup. lia. Qed.

Lemma mirror_lookup_next :
  i ≠ last_index exons →
  mirrored !!! (i + 1)%nat = mirror_exon c (exons !!! (i + 1)%nat).
Proof. unfold last_index. intros. apply mirror_lookup. lia. Qed.

Lemma whole_space_symmetry :
  outcome <$> ns_whole_space self mirrored variant' i
  = outcome <$> ps_whole_space self exons variant i.
Proof.
  unfold ns_whole_space, ps_whole_space.
  rewrite last_index_mirror, Hend, (mirror_lookup c exons i Hi).
  destruct (decide (i = last_index exons)) as [Hlast|Hlast].
  - generalize (mirrored !!! (i + 1)%nat) (exons !!! (i + 1)%nat).
    intros mn n. simpl.
    destruct (all_exonic_space_ self), (all_intronic_space_ self); simpl;
      repeat case_bool_decide; settle_outcome.
  - rewrite (mirror_lookup_next Hlast). simpl.
    destruct (all_exonic_space_ self), (all_intronic_space_ self); simpl;
      repeat case_bool_decide; settle_outcome.
Qed.

Lemma rest_outside_symmetry :
  ns_rest_outside self mirrored variant' i ↔ ps_rest_outside self exons variant i.
Proof.
  unfold ns_rest_outside, ps_rest_outside.
  rewrite Hend, (mirror_lookup c exons i Hi). simpl. lia.
Qed.

Lemma proximity_symmetry :
  outcome <$> ns_proximity self mirrored variant' i
  = outcome <$> ps_proximity self exons variant i.
Proof.
  unfold ns_proximity, ps_proximity.
  rewrite last_index_mirror, Hend, mirror_lookup_prev,
    (mirror_lookup c exons i Hi).
  destruct (decide (i = last_index exons)) as [Hlast|Hlast].
  - generalize (mirrored !!! (i + 1)%nat) (exons !!! (i + 1)%nat).
    intros mn n. simpl.
    repeat case_bool_decide; settle_outcome.
  - rewrite (mirror_lookup_next Hlast). simpl.
    repeat case_bool_decide; settle_outcome.
Qed.
End Symmetry.

(** One iteration of the '-' loop on the mirrored list decides as the same
    iteration of the '+' loop on the list itself. *)
Lemma iteration_symmetry self exons variant variant' c i :
  (i < length exons)%nat →
  end_ (bed variant') = c - end_ (bed variant) →
  start (exons !!! i) <= end_ (exons !!! i) →
  outcome variant' = outcome variant →
  outcome <$> ns_iteration self (mirror_exon c <$> exons) variant' i
  = outcome <$> ps_iteration self exons variant i.
Proof.
  intros Hi Hend Hwf Hout.
  pose proof (whole_space_symmetry self exons variant variant' c i Hi Hend Hwf) as Hw.
  pose proof (rest_outside_symmetry self exons variant variant' c i Hi Hend) as Hr.
  pose proof (proximity_symmetry self exons variant variant' c i Hi Hend Hwf) as Hp.
  unfold ns_iteration, ps_iteration.
  destruct (ns_whole_space _ _ _ _), (ps_whole_space _ _ _ _);
    try discriminate Hw; [exact Hw|].
  destruct (decide (ns_rest_outside _ _ _ _)) as [Hn|Hn],
    (decide (ps_rest_outside _ _ _ _)) as [Hq|Hq].
  - simpl. by rewrite Hout.
  - by apply Hr in Hn.
  - by apply Hr in Hq.
  - exact Hp.
Qed.

Lemma outside_transcript_symmetry exons variant variant' c :
  exons ≠ [] →
  end_ (bed variant') = c - end_ (bed variant) →
  ns_outside_transcript (mirror_exon c <$> exons) variant'
  ↔ ps_outside_transcript exons variant.
Proof.
  intros Hne Hend. unfold ns_outside_transcript, ps_outside_transcript.
  assert (0 < length exons)%nat by (destruct exons; [done|simpl; lia]).
  rewrite last_index_mirror, Hend, !mirror_lookup
    by (unfold last_index; lia).
  simpl. lia.
Qed.



(** The '-' procedure walks its list from high to low coordinates: handed
    the exons [100,200] and [300,400] in that ascending order it rejects
    the coordinate 301 by its transcript test, and handed the same exons
    from high to low it finds 301 one base inside the exon [300,400]. *)
Example minus_strand_list_order :
  outcome (get_variant_overlaps_spliceregion_ns default_options
             [mkBED "1" 100 200 "-"; mkBED "1" 300 400 "-"]
             (new_AnnotatedVariant "1" 300 301))
  = ("non_splice_region", "-1")%string ∧
  outcome (get_variant_overlaps_spliceregion_ns default_options
             [mkBED "1" 300 400 "-"; mkBED "1" 100 200 "-"]
             (new_AnnotatedVariant "1" 300 301))
  = ("splicing_exonic", "1")%string.
Proof. split; reflexivity. Qed.

(** The symmetry is one of intervals: with the record [100,97], whose
    start exceeds its end, as second exon, the coordinate 98 is both
    "intronic near the start" and "intronic near the end" of that record;
    the '+' procedure tests the start first and the '-' procedure on the
    mirrored list tests the mirrored end first, and the scores differ. *)
Example symmetry_is_about_intervals :
  let records := [mkBED "1" 0 10 "+"; mkBED "1" 100 97 "+"; mkBED "1" 200 300 "+"] in
  outcome (get_variant_overlaps_spliceregion_ps default_options records
             (new_AnnotatedVariant "1" 97 98))
  = ("splicing_intronic", "2")%string ∧
  outcome (get_variant_overlaps_spliceregion_ns default_options
             (mirror_transcript records)
             (mirror_variant (reflection_constant records)
                             (new_AnnotatedVariant "1" 97 98)))
  = ("splicing_intronic", "1")%string.
Proof. split; reflexivity. Qed.

(** ** The early-termination shortcut *)

Lemma scan_all_none body indices variant :
  (∀ j, j ∈ indices → body j = None) →
  scan body indices variant = variant.
Proof.
  induction indices as [|i rest IH]; intros Hnone; simpl; [done|].
  rewrite (Hnone i) by left. apply IH. intros j Hj. apply Hnone. by right.
Qed.

Section Shortcut.
Variable self : VariantsAnnotator.
Variable exons : list BED.
Variable variant : AnnotatedVariant.
Hypothesis Hintronic : 0 <= intronic_min_distance_ self.
Hypothesis Hwf : well_formed exons.

(** Once the '+' test fires at exon [i], no exon from [i] on can match:
    all of them start beyond the reach of the variant. *)
Lemma ps_nothing_beyond i j :
  sorted_by_start exons →
  (i <= j < length exons)%nat →
  ps_rest_outside self exons variant i →
  ps_iteration_no_shortcut self exons variant j = None.
Proof.
  intros Hsorted Hij Hout. unfold ps_rest_outside in Hout.
  pose proof (Hsorted i j Hij) as Hs.
  pose proof (Hwf j (proj2 Hij)) as Hj.
  unfold ps_iteration_no_shortcut, ps_whole_space, ps_proximity.
  rewrite !bool_decide_eq_false_2, !andb_false_r by lia. done.
Qed.

(** Once the '-' test fires at exon [i], no exon from [i] on can match:
    all of them end before the reach of the variant. *)
Lemma ns_nothing_beyond i j :
  sorted_by_end_descending exons →
  (i <= j < length exons)%nat →
  ns_rest_outside self exons variant i →
  ns_iteration_no_shortcut self exons variant j = None.
Proof.
  intros Hsorted Hij Hout. unfold ns_rest_outside in Hout.
  pose proof (Hsorted i j Hij) as Hs.
  pose proof (Hwf j (proj2 Hij)) as Hj.
  unfold ns_iteration_no_shortcut, ns_whole_space, ns_proximity.
  rewrite !bool_decide_eq_false_2, !andb_false_r by lia. done.
Qed.

Lemma ps_scan_shortcut n k :
  sorted_by_start exons →
  (k + n <= length exons)%nat →
  scan (ps_iteration self exons variant) (seq k n) variant
  = scan (ps_iteration_no_shortcut self exons variant) (seq k n) variant.
Proof.
  intros Hsorted. revert k. induction n as [|n IH]; intros k Hk; simpl; [done|].
  unfold ps_iteration at 1, ps_iteration_no_shortcut at 1.
  destruct (ps_whole_space self exons variant k) as [r|] eqn:Hw; [done|].
  case_decide as Hout.
  - pose proof (ps_nothing_beyond k k Hsorted ltac:(lia) Hout) as Hk0.
    unfold ps_iteration_no_shortcut in Hk0. rewrite Hw in Hk0. rewrite Hk0.
    symmetry. apply scan_all_none.
    intros j [??]%elem_of_seq.
    apply (ps_nothing_beyond k j Hsorted); [lia|done].
  - destruct (ps_proximity self exons variant k); [done|].
    apply IH. lia.
Qed.

Lemma ns_scan_shortcut n k :
  sorted_by_end_descending exons →
  (k + n <= length exons)%nat →
  scan (ns_iteration self exons variant) (seq k n) variant
  = scan (ns_iteration_no_shortcut self exons variant) (seq k n) variant.
Proof.
  intros Hsorted. revert k. induction n as [|n IH]; intros k Hk; simpl; [done|].
  unfold ns_iteration at 1, ns_iteration_no_shortcut at 1.
  destruct (ns_whole_space self exons variant k) as [r|] eqn:Hw; [done|].
  case_decide as Hout.
  - pose proof (ns_nothing_beyond k k Hsorted ltac:(lia) Hout) as Hk0.
    unfold ns_iteration_no_shortcut in Hk0. rewrite Hw in Hk0. rewrite Hk0.
    symmetry. apply scan_all_none.
    intros j [??]%elem_of_seq.
    apply (ns_nothing_beyond k j Hsorted); [lia|done].
  - destruct (ns_proximity self exons variant k); [done|].
    apply IH. lia.
Qed.
End Shortcut.


Lemma scenario_exons_well_formed s : well_formed (scenario_exons s).
Proof. intros i Hi. simpl in Hi. destruct i as [|[|i]]; simpl; lia. Qed.

Lemma scenario_exons_sorted s : sorted_by_start (scenario_exons s).
Proof.
  intros i j [Hij Hj]. simpl in Hj.
  destruct i as [|[|i]], j as [|[|j]]; simpl; lia.
Qed.

Lemma mirrored_scenario_exons_well_formed :
  well_formed (mirror_transcript (scenario_exons "+")).
Proof. intros i Hi. simpl in Hi. destruct i as [|[|i]]; simpl; lia. Qed.

Lemma mirrored_scenario_exons_sorted :
  sorted_by_end_descending (mirror_transcript (scenario_exons "+")).
Proof.
  intros i j [Hij Hj]. simpl in Hj.
  destruct i as [|[|i]], j as [|[|j]]; simpl; lia.
Qed.



(** ** The aggregator as one loop over the candidates *)

Lemma for_each_app {A B : Type} (body : A → B → result A) items1 items2 a :
  for_each body (items1 ++ items2) a
  = (a' ← for_each body items1 a; for_each body items2 a').
Proof.
  revert a. induction items1 as [|x rest IH]; intros a; simpl; [done|].
  destruct (body a x); simpl; [apply IH|done].
Qed.

(** What a loop that throws has done: it ran a prefix of the items and the
    body threw at the next one. *)
Lemma for_each_throw {A B : Type} (body : A → B → result A) items a e :
  for_each body items a = Throw e ↔
  ∃ before x after a',
    items = before ++ x :: after ∧
    for_each body before a = Ok a' ∧ body a' x = Throw e.
Proof.
  revert a. induction items as [|x rest IH]; intros a; simpl.
  - split; [done|]. intros (before & y & after & a' & Heq & _).
    by destruct before.
  - destruct (body a x) as [a1|e1] eqn:Hx; simpl.
    + rewrite IH. split.
      * intros (before & y & after & a' & -> & Hrun & Hy).
        exists (x :: before), y, after, a'. simpl. by rewrite Hx.
      * intros (before & y & after & a' & Heq & Hrun & Hy).
        destruct before as [|x' before]; simplify_eq/=.
        { congruence. }
        rewrite Hx in Hrun. simpl in Hrun. by exists before, y, after, a'.
    + split.
      * intros [= ->]. by exists [], x, rest, a.
      * intros (before & y & after & a' & Heq & Hrun & Hy).
        destruct before as [|x' before]; simplify_eq/=.
        { congruence. }
        rewrite Hx in Hrun. done.
Qed.

Section AggregatorFacts.
Variable self : VariantsAnnotator.
Variable gtf_ : GtfParser.
Variable scheme : BinScheme.

Local Abbreviation step := (annotate_transcript self gtf_).

Lemma annotate_bins_candidates chr lo hi l :
  annotate_bins self gtf_ chr lo hi l
  = for_each step (bin_candidates gtf_ chr lo hi) l.
Proof.
  unfold annotate_bins, bin_candidates.
  generalize (bins_between lo hi). intros bins. revert l.
  induction bins as [|b rest IH]; intros l; simpl; [done|].
  rewrite for_each_app.
  destruct (for_each step (transcripts_from_bin gtf_ chr b) l); simpl;
    [apply IH|done].
Qed.

Lemma annotate_levels_candidates chr levels start_bin end_bin l :
  annotate_levels self gtf_ scheme chr levels start_bin end_bin l
  = for_each step (level_candidates gtf_ scheme chr levels start_bin end_bin) l.
Proof.
  revert start_bin end_bin l.
  induction levels as [|i rest IH]; intros start_bin end_bin l; simpl; [done|].
  rewrite for_each_app, annotate_bins_candidates.
  destruct (for_each step _ l); simpl; [apply IH|done].
Qed.

(** The three nested loops are one loop over the candidate transcripts
    in the order of the bin traversal. *)
Lemma annotate_record_candidates chr pos :
  annotate_record_with_transcripts self gtf_ scheme chr pos
  = (l ← for_each step (candidates self gtf_ scheme chr pos)
                        (initial_locals chr pos);
     Ok (finish l)).
Proof.
  unfold annotate_record_with_transcripts, candidates.
  by rewrite annotate_levels_candidates.
Qed.
End AggregatorFacts.

(** ** Errors *)

Lemma dispatch_throws self exons variant e :
  get_variant_overlaps_spliceregion self exons variant = Throw e ↔
  e = UnknownStrand (strand (exons !!! 0%nat)) ∧
  strand (exons !!! 0%nat) ≠ "+" ∧ strand (exons !!! 0%nat) ≠ "-".
Proof.
  unfold get_variant_overlaps_spliceregion.
  repeat case_decide; split; try done; try naive_solver.
Qed.

Lemma annotate_transcript_throws self gtf_ l transcript e :
  annotate_transcript self gtf_ l transcript = Throw e ↔
  (e = MissingExons transcript ∧
   get_exons_from_transcript gtf_ transcript = []) ∨
  (get_exons_from_transcript gtf_ transcript ≠ [] ∧
   (skip_single_exon_genes_ self = true →
    length (get_exons_from_transcript gtf_ transcript) ≠ 1%nat) ∧
   get_variant_overlaps_spliceregion self
     (get_exons_from_transcript gtf_ transcript) (Locals.variant l) = Throw e).
Proof.
  unfold annotate_transcript.
  destruct (get_exons_from_transcript gtf_ transcript) as [|e0 rest] eqn:Hexons.
  { simpl. naive_solver. }
  rewrite decide_False by done.
  destruct (skip_single_exon_genes_ self); simpl.
  - case_bool_decide as Hone.
    + split; [done|]. intros [[_ [=]]|(_ & Hskip & _)]. by destruct Hskip.
    + destruct (get_variant_overlaps_spliceregion _ _ _) as [variant|e'] eqn:Hc;
        simpl.
      * repeat case_decide; naive_solver.
      * naive_solver.
  - destruct (get_variant_overlaps_spliceregion _ _ _) as [variant|e'] eqn:Hc;
      simpl.
    + repeat case_decide; naive_solver.
    + naive_solver.
Qed.

(** C7. The dispatch throws exactly when the strand of the transcript
    (of its first exon) is neither "+" nor "-", and what it throws is
    [UnknownStrand]; the aggregator's loop body throws [MissingExons] for a
    candidate exactly when the feature store returns no exon for it; and a
    run of [annotate_record_with_transcripts] throws [e] exactly when the
    loop body throws [e] at some candidate after having gone through the
    candidates before it: what the body throws ends the run and is its
    result, nothing is caught. *)
Theorem error_raising_conditions
    (self : VariantsAnnotator) (gtf_ : GtfParser) (scheme : BinScheme) :
  (∀ exons variant,
     (get_variant_overlaps_spliceregion self exons variant
      = Throw (UnknownStrand (strand (exons !!! 0%nat)))
      ↔ strand (exons !!! 0%nat) ≠ "+" ∧ strand (exons !!! 0%nat) ≠ "-") ∧
     (∀ e, get_variant_overlaps_spliceregion self exons variant = Throw e ↔
           e = UnknownStrand (strand (exons !!! 0%nat)) ∧
           strand (exons !!! 0%nat) ≠ "+" ∧ strand (exons !!! 0%nat) ≠ "-")) ∧
  (∀ l transcript,
     (annotate_transcript self gtf_ l transcript = Throw (MissingExons transcript)
      ↔ get_exons_from_transcript gtf_ transcript = []) ∧
     (∀ other, annotate_transcript self gtf_ l transcript
               = Throw (MissingExons other) → other = transcript)) ∧
  (∀ chr pos e,
     annotate_record_with_transcripts self gtf_ scheme chr pos = Throw e ↔
     ∃ before transcript after l,
       candidates self gtf_ scheme chr pos = before ++ transcript :: after ∧
       for_each (annotate_transcript self gtf_) before (initial_locals chr pos)
       = Ok l ∧
       annotate_transcript self gtf_ l transcript = Throw e).
Proof.
  split; [|split].
  - intros exons variant. split; [|apply dispatch_throws].
    rewrite dispatch_throws. naive_solver.
  - intros l transcript. split.
    + rewrite annotate_transcript_throws, dispatch_throws. naive_solver.
    + intros other. rewrite annotate_transcript_throws, dispatch_throws.
      naive_solver.
  - intros chr pos e. rewrite annotate_record_candidates, <- for_each_throw.
    destruct (for_each _ _ _); simpl; naive_solver.
Qed.

(** ** Single exon transcripts *)

Lemma annotate_transcript_single_exon self gtf_ l transcript :
  skip_single_exon_genes_ self = true →
  length (get_exons_from_transcript gtf_ transcript) = 1%nat →
  annotate_transcript self gtf_ l transcript = Ok l.
Proof.
  intros Hskip Hone. unfold annotate_transcript.
  rewrite Hskip, Hone. simpl. done.
Qed.

Lemma for_each_multi_exon self gtf_ transcripts l :
  skip_single_exon_genes_ self = true →
  for_each (annotate_transcript self gtf_) transcripts l
  = for_each (annotate_transcript self gtf_)
             (multi_exon_candidates gtf_ transcripts) l.
Proof.
  intros Hskip. revert l.
  induction transcripts as [|t rest IH]; intros l; [done|].
  unfold multi_exon_candidates. rewrite filter_cons.
  case_decide as Hne.
  - simpl. destruct (annotate_transcript self gtf_ l t); simpl; [apply IH|done].
  - simpl. rewrite annotate_transcript_single_exon; [apply IH|done|].
    destruct (decide (length (get_exons_from_transcript gtf_ t) = 1%nat)); done.
Qed.

(** C9. With [skip_single_exon_genes_] on (the default), a candidate whose
    exon list has exactly one exon leaves every local of the aggregator as
    it was: nothing is added to the genes, the transcripts, the distances
    or the annotations, the set of seen genes and the variant are
    untouched, and the classifier is not called, wherever the variant
    lies.  So the record is annotated as if the single exon transcripts
    were not among the candidates. *)
Theorem single_exon_transcripts_skipped
    (self : VariantsAnnotator) (gtf_ : GtfParser) (scheme : BinScheme) :
  skip_single_exon_genes_ self = true →
  (∀ l transcript,
     length (get_exons_from_transcript gtf_ transcript) = 1%nat →
     annotate_transcript self gtf_ l transcript = Ok l) ∧
  (∀ chr pos,
     annotate_record_with_transcripts self gtf_ scheme chr pos
     = (l ← for_each (annotate_transcript self gtf_)
              (multi_exon_candidates gtf_ (candidates self gtf_ scheme chr pos))
              (initial_locals chr pos);
        Ok (finish l))).
Proof.
  intros Hskip. split.
  - intros l transcript. by apply annotate_transcript_single_exon.
  - intros chr pos.
    by rewrite annotate_record_candidates, for_each_multi_exon.
Qed.

(** ** One variant object for all the candidates *)

Lemma scan_same_update exons body1 body2 indices u1 u2 :
  (∀ i, i ∈ indices → same_step exons u1 u2 (body1 i) (body2 i)) →
  same_update exons u1 (scan body1 indices u1) u2 (scan body2 indices u2).
Proof.
  intros Hbody. induction indices as [|i rest IH]; simpl; [by left|].
  pose proof (Hbody i (list_elem_of_here _ _)) as Hi. unfold same_step in Hi.
  destruct (body1 i), (body2 i); try done.
  apply IH. intros j Hj. apply Hbody. by right.
Qed.

Ltac same_step_cases :=
  repeat case_bool_decide; repeat case_decide; simpl;
  first [ done | lia | tauto
        | by left
        | right; left; by eexists _, _, _
        | right; right; by eexists _, _, _, _ ].

Lemma ps_iteration_same_step self exons u1 u2 i :
  end_ (bed u1) = end_ (bed u2) →
  same_step exons u1 u2 (ps_iteration self exons u1 i) (ps_iteration self exons u2 i).
Proof.
  intros Hend.
  unfold ps_iteration, ps_whole_space, ps_proximity, ps_rest_outside.
  rewrite Hend.
  destruct (all_exonic_space_ self), (all_intronic_space_ self); simpl;
    same_step_cases.
Qed.

Lemma ns_iteration_same_step self exons u1 u2 i :
  end_ (bed u1) = end_ (bed u2) →
  same_step exons u1 u2 (ns_iteration self exons u1 i) (ns_iteration self exons u2 i).
Proof.
  intros Hend.
  unfold ns_iteration, ns_whole_space, ns_proximity, ns_rest_outside.
  rewrite Hend.
  destruct (all_exonic_space_ self), (all_intronic_space_ self); simpl;
    same_step_cases.
Qed.

Lemma classify_ps_same_update self exons v1 v2 :
  end_ (bed v1) = end_ (bed v2) →
  same_update exons
    (reset_result v1) (get_variant_overlaps_spliceregion_ps self exons v1)
    (reset_result v2) (get_variant_overlaps_spliceregion_ps self exons v2).
Proof.
  intros Hend. unfold get_variant_overlaps_spliceregion_ps, ps_outside_transcript.
  rewrite !end_reset_result, Hend.
  case_decide; [by left|].
  apply scan_same_update. intros i _. by apply ps_iteration_same_step.
Qed.

Lemma classify_ns_same_update self exons v1 v2 :
  end_ (bed v1) = end_ (bed v2) →
  same_update exons
    (reset_result v1) (get_variant_overlaps_spliceregion_ns self exons v1)
    (reset_result v2) (get_variant_overlaps_spliceregion_ns self exons v2).
Proof.
  intros Hend. unfold get_variant_overlaps_spliceregion_ns, ns_outside_transcript.
  rewrite !end_reset_result, Hend.
  case_decide; [by left|].
  apply scan_same_update. intros i _. by apply ns_iteration_same_step.
Qed.

Lemma same_update_outcome exons u1 r1 u2 r2 :
  outcome u1 = outcome u2 →
  same_update exons u1 r1 u2 r2 →
  outcome r1 = outcome r2.
Proof.
  intros Hout [[-> ->]|[(a & b & label & -> & ->)|(a & b & label & i & -> & ->)]].
  - done.
  - by rewrite !outcome_set_result.
  - by rewrite !outcome_cis_limits, !outcome_set_result.
Qed.

Lemma cis_limits_covers exons v1 v2 i :
  covers v1 v2 →
  covers (set_variant_cis_effect_limits exons v1 i)
         (set_variant_cis_effect_limits exons v2 i).
Proof.
  intros (Hend & Hs & He). unfold covers.
  destruct (cis_limits_frame exons v1 i) as (-> & _).
  destruct (cis_limits_frame exons v2 i) as (-> & _).
  split; [done|]. cis_cases.
Qed.

Lemma same_update_covers exons u1 r1 u2 r2 :
  covers u1 u2 →
  same_update exons u1 r1 u2 r2 →
  covers r1 r2.
Proof.
  intros Hc [[-> ->]|[(a & b & label & -> & ->)|(a & b & label & i & -> & ->)]].
  - done.
  - done.
  - by apply cis_limits_covers.
Qed.

Lemma same_update_widens exons u1 r1 u2 r2 :
  same_update exons u1 r1 u2 r2 →
  covers r1 u1.
Proof.
  intros [[-> ->]|[(a & b & label & -> & ->)|(a & b & label & i & -> & ->)]];
    unfold covers.
  - lia.
  - simpl. lia.
  - destruct (cis_limits_frame exons (set_result u1 a b label) i) as (-> & _).
    pose proof (cis_limits_widen exons (set_result u1 a b label) i).
    simpl in *. lia.
Qed.

Lemma covers_refl v : covers v v.
Proof. unfold covers. lia. Qed.

Lemma covers_trans v1 v2 v3 : covers v1 v2 → covers v2 v3 → covers v1 v3.
Proof. unfold covers. intros (? & ? & ?) (? & ? & ?). split; [congruence|lia]. Qed.

Lemma related_results exons v1 v2 r1 r2 :
  same_update exons (reset_result v1) r1 (reset_result v2) r2 →
  outcome r1 = outcome r2 ∧ covers r1 v1 ∧ (covers v1 v2 → covers r1 r2).
Proof.
  intros Hu. split; [|split].
  - eapply same_update_outcome; [|exact Hu]. reflexivity.
  - apply same_update_widens in Hu. exact Hu.
  - intros Hc. eapply same_update_covers; [|exact Hu]. exact Hc.
Qed.

Section OneVariant.
Variable self : VariantsAnnotator.

(** The label and the score a classification leaves depend on the
    variant handed in through its working coordinate only; the window
    it leaves contains the window handed in, and grows with it. *)
Lemma dispatch_related exons v1 v2 :
  end_ (bed v1) = end_ (bed v2) →
  match get_variant_overlaps_spliceregion self exons v1,
        get_variant_overlaps_spliceregion self exons v2 with
  | Ok r1, Ok r2 =>
      outcome r1 = outcome r2 ∧ covers r1 v1 ∧ (covers v1 v2 → covers r1 r2)
  | Throw e1, Throw e2 => e1 = e2
  | _, _ => False
  end.
Proof.
  intros Hend. unfold get_variant_overlaps_spliceregion.
  repeat case_decide; try done.
  - apply (related_results exons). by apply classify_ps_same_update.
  - apply (related_results exons). by apply classify_ns_same_update.
Qed.

Variable gtf_ : GtfParser.

(** What the loop body does to the variant: nothing for a skipped
    candidate, and otherwise the classification of the variant the
    earlier candidates left. *)
Lemma annotate_transcript_variant l transcript l' :
  annotate_transcript self gtf_ l transcript = Ok l' →
  (skip_single_exon_genes_ self = true ∧
   length (get_exons_from_transcript gtf_ transcript) = 1%nat ∧ l' = l) ∨
  (¬ (skip_single_exon_genes_ self = true ∧
      length (get_exons_from_transcript gtf_ transcript) = 1%nat) ∧
   get_variant_overlaps_spliceregion self
     (get_exons_from_transcript gtf_ transcript) (Locals.variant l)
   = Ok (Locals.variant l')).
Proof.
  unfold annotate_transcript.
  case_decide; [done|].
  destruct (skip_single_exon_genes_ self); simpl.
  - case_bool_decide.
    + intros [= <-]. by left.
    + destruct (get_variant_overlaps_spliceregion _ _ _) as [variant|e]; [|done].
      simpl. intros Hl'. right. split; [tauto|].
      repeat case_decide; by simplify_eq/=.
  - destruct (get_variant_overlaps_spliceregion _ _ _) as [variant|e]; [|done].
    simpl. intros Hl'. right. split; [by intros [? _]|].
    repeat case_decide; by simplify_eq/=.
Qed.

Lemma annotate_transcript_widens l transcript l' :
  annotate_transcript self gtf_ l transcript = Ok l' →
  covers (Locals.variant l') (Locals.variant l).
Proof.
  intros [(_ & _ & ->)|[_ Hc]]%annotate_transcript_variant;
    [apply covers_refl|].
  pose proof (dispatch_related
                (get_exons_from_transcript gtf_ transcript)
                (Locals.variant l) (Locals.variant l) eq_refl) as Hr.
  rewrite Hc in Hr. tauto.
Qed.

Lemma for_each_widens transcripts l l' :
  for_each (annotate_transcript self gtf_) transcripts l = Ok l' →
  covers (Locals.variant l') (Locals.variant l).
Proof.
  revert l. induction transcripts as [|t rest IH]; intros l; simpl.
  - intros [= ->]. apply covers_refl.
  - destruct (annotate_transcript self gtf_ l t) as [l1|e] eqn:Ht; [|done].
    simpl. intros Hrest.
    eapply covers_trans; [by apply IH|by eapply annotate_transcript_widens].
Qed.
End OneVariant.

Lemma for_each_ok_split {A B : Type} (body : A → B → result A) before x after a z :
  for_each body (before ++ x :: after) a = Ok z →
  ∃ a1 a2, for_each body before a = Ok a1 ∧ body a1 x = Ok a2 ∧
           for_each body after a2 = Ok z.
Proof.
  rewrite for_each_app. destruct (for_each body before a) as [a1|e]; [|done].
  simpl. destruct (body a1 x) as [a2|e] eqn:Hx; [|done].
  simpl. intros Hafter. by exists a1, a2.
Qed.

(** C10. Within one call of [annotate_record_with_transcripts] one variant
    is handed from candidate to candidate: the loop body classifies the
    variant the earlier candidates left (unless it skips the candidate).
    The label and the score of a classification do not depend on what the
    variant held before, only on its working coordinate.  The window is
    never reset: every classification, every loop body and every run of
    the loop leaves [cis_effect_start] at or below and [cis_effect_end] at
    or above what it found.  And the window of the annotated record
    contains, for every candidate that was classified, the window the
    classification of that candidate alone computes from the fresh
    variant. *)
Theorem one_variant_for_all_candidates
    (self : VariantsAnnotator) (gtf_ : GtfParser) (scheme : BinScheme) :
  (∀ l transcript l',
     annotate_transcript self gtf_ l transcript = Ok l' →
     (skip_single_exon_genes_ self = true ∧
      length (get_exons_from_transcript gtf_ transcript) = 1%nat ∧ l' = l) ∨
     (¬ (skip_single_exon_genes_ self = true ∧
         length (get_exons_from_transcript gtf_ transcript) = 1%nat) ∧
      get_variant_overlaps_spliceregion self
        (get_exons_from_transcript gtf_ transcript) (Locals.variant l)
      = Ok (Locals.variant l'))) ∧
  (∀ exons v1 v2,
     end_ (bed v1) = end_ (bed v2) →
     match get_variant_overlaps_spliceregion self exons v1,
           get_variant_overlaps_spliceregion self exons v2 with
     | Ok r1, Ok r2 => outcome r1 = outcome r2
     | Throw e1, Throw e2 => e1 = e2
     | _, _ => False
     end) ∧
  (∀ exons v r,
     get_variant_overlaps_spliceregion self exons v = Ok r →
     cis_effect_start r <= cis_effect_start v ∧
     cis_effect_end v <= cis_effect_end r) ∧
  (∀ transcripts l l',
     for_each (annotate_transcript self gtf_) transcripts l = Ok l' →
     cis_effect_start (Locals.variant l') <= cis_effect_start (Locals.variant l) ∧
     cis_effect_end (Locals.variant l) <= cis_effect_end (Locals.variant l')) ∧
  (∀ chr pos final,
     annotate_record_with_transcripts self gtf_ scheme chr pos = Ok final →
     ∀ transcript w,
       transcript ∈ candidates self gtf_ scheme chr pos →
       ¬ (skip_single_exon_genes_ self = true ∧
          length (get_exons_from_transcript gtf_ transcript) = 1%nat) →
       get_variant_overlaps_spliceregion self
         (get_exons_from_transcript gtf_ transcript)
         (new_AnnotatedVariant chr pos (pos + 1)) = Ok w →
       cis_effect_start final <= cis_effect_start w ∧
       cis_effect_end w <= cis_effect_end final).
Proof.
  split; [|split; [|split; [|split]]].
  - apply annotate_transcript_variant.
  - intros exons v1 v2 Hend.
    pose proof (dispatch_related self exons v1 v2 Hend) as Hr.
    destruct (get_variant_overlaps_spliceregion self exons v1),
      (get_variant_overlaps_spliceregion self exons v2); tauto.
  - intros exons v r Hr.
    pose proof (dispatch_related self exons v v eq_refl) as Hrel.
    rewrite Hr in Hrel. destruct Hrel as (_ & (_ & ? & ?) & _). done.
  - intros transcripts l l' Hrun.
    apply for_each_widens in Hrun as (_ & ? & ?). done.
  - intros chr pos final Hrun transcript w Hin Hclassified Hw.
    rewrite annotate_record_candidates in Hrun.
    destruct (for_each _ _ _) as [l_end|e] eqn:Hloop; [|done].
    simpl in Hrun. injection Hrun as <-.
    apply list_elem_of_split in Hin as (before & after & Hsplit).
    rewrite Hsplit in Hloop.
    apply for_each_ok_split in Hloop as (l1 & l2 & Hbefore & Hstep & Hafter).
    apply for_each_widens in Hbefore. apply for_each_widens in Hafter.
    apply annotate_transcript_variant in Hstep as [(? & ? & _)|[_ Hstep]];
      [tauto|].
    pose proof (dispatch_related self
                  (get_exons_from_transcript gtf_ transcript)
                  (Locals.variant l1) (new_AnnotatedVariant chr pos (pos + 1))
                  (proj1 Hbefore)) as Hrel.
    rewrite Hstep, Hw in Hrel. destruct Hrel as (_ & _ & Hgrow).
    specialize (Hgrow Hbefore).
    destruct (covers_trans _ _ _ Hafter Hgrow) as (_ & ? & ?).
    done.
Qed.

(** ** Genes, transcripts, distances and annotations of a record *)

(** C6 on the scenario of the specification: two transcripts "T1" and "T2"
    of gene "G1", both splice relevant for the variant at working
    coordinate 199, give one gene and two parallel entries in the other
    lists.  When the first of the two is named "NA" instead, the second
    entry replaces the first one: the loop takes the text "NA" in
    [overlapping_transcripts] for "no entry yet". *)
Theorem two_transcripts_of_one_gene :
  lists <$> annotate_record_with_transcripts default_options
              (example_store ["T1"; "T2"]) example_scheme "1" 198
  = Ok ("G1", "T1,T2", "1,1", "splicing_exonic,splicing_exonic")%string ∧
  lists <$> annotate_record_with_transcripts default_options
              (example_store ["NA"; "T2"]) example_scheme "1" 198
  = Ok ("G1", "T2", "1", "splicing_exonic")%string.
Proof. split; vm_compute; reflexivity. Qed.

Lemma single_exon_transcripts_skipped_witness :
  lists <$> annotate_record_with_transcripts default_options
              (example_store ["S"]) example_scheme "1" 149
  = Ok ("NA", "NA", "NA", "NA")%string.
Proof.
  rewrite (proj2 (single_exon_transcripts_skipped default_options
                    (example_store ["S"]) example_scheme eq_refl) "1" 149).
  vm_compute. reflexivity.
Defined.

(** *** The lists when no candidate is named "NA" *)

Lemma comma_never_completes_NA acc y : acc +:+ ("," +:+ y) ≠ "NA".
Proof. destruct acc as [|a [|b [|c acc]]]; intros H; by simplify_eq/=. Qed.

Lemma comma_joined_NA x rest :
  comma_joined (x :: rest) = "NA" → x = "NA" ∧ rest = [].
Proof.
  destruct rest as [|y rest _] using rev_ind; simpl; [done|].
  rewrite foldl_snoc. intros H. by apply comma_never_completes_NA in H.
Qed.

Lemma comma_joined_snoc items y :
  items ≠ [] →
  comma_joined (items ++ [y]) = comma_joined items +:+ ("," +:+ y).
Proof.
  destruct items as [|x rest]; [done|]. intros _. simpl. by rewrite foldl_snoc.
Qed.

Lemma first_seen_snoc items g :
  first_seen (items ++ [g])
  = if decide (g ∈ first_seen items) then first_seen items
    else first_seen items ++ [g].
Proof. unfold first_seen. by rewrite foldl_snoc. Qed.

Lemma elem_of_first_seen items g : g ∈ first_seen items ↔ g ∈ items.
Proof.
  induction items as [|h items IH] using rev_ind.
  - done.
  - rewrite first_seen_snoc, elem_of_app, list_elem_of_singleton.
    case_decide as Hin.
    + split; [tauto|]. intros [?| ->]; [tauto|done].
    + rewrite elem_of_app, list_elem_of_singleton. tauto.
Qed.

Lemma first_seen_nonempty items : items ≠ [] → first_seen items ≠ [].
Proof.
  destruct items as [|g items]; [done|]. intros _ Hnil.
  assert (g ∈ first_seen (g :: items)) as Hg by (apply elem_of_first_seen; left).
  rewrite Hnil in Hg. by apply elem_of_nil in Hg.
Qed.

Lemma first_seen_one_gene g items :
  items ≠ [] → Forall (λ x, x = g) items → first_seen items = [g].
Proof.
  induction items as [|h items IH] using rev_ind; [done|].
  intros _ [Hall ->%Forall_singleton]%Forall_app.
  rewrite first_seen_snoc.
  destruct items as [|x items]; [done|].
  rewrite IH by done. rewrite decide_True; [done|left].
Qed.

Lemma holds_first coordinate l variant gene transcript :
  holds coordinate [] l →
  end_ (bed variant) = coordinate →
  holds coordinate
    [mkContribution gene transcript (score variant) (annotation variant)]
    (Locals.mk gene transcript (score variant) (annotation variant)
               ({[gene]} ∪ Locals.unique_genes l) variant).
Proof.
  intros (_ & Hu & _) Hend. unfold holds. simpl. rewrite Hu.
  repeat split; try done.
Qed.

Lemma holds_next coordinate cs l variant gene transcript :
  cs ≠ [] →
  holds coordinate cs l →
  end_ (bed variant) = coordinate →
  holds coordinate
    (cs ++ [mkContribution gene transcript (score variant) (annotation variant)])
    (Locals.mk
       (if bool_decide (gene ∉ Locals.unique_genes l)
        then Locals.overlapping_genes l +:+ ("," +:+ gene)
        else Locals.overlapping_genes l)
       (Locals.overlapping_transcripts l +:+ ("," +:+ transcript))
       (Locals.overlapping_distances l +:+ ("," +:+ score variant))
       (Locals.annotations l +:+ ("," +:+ annotation variant))
       (if bool_decide (gene ∉ Locals.unique_genes l)
        then {[gene]} ∪ Locals.unique_genes l
        else Locals.unique_genes l)
       variant).
Proof.
  intros Hne (Hend & Hu & Hg & Ht & Hd & Ha) Hv. unfold holds. simpl.
  assert (∀ f : contribution → string, f <$> cs ≠ []) as Hfne.
  { intros f. by destruct cs. }
  rewrite !fmap_app. simpl.
  rewrite !comma_joined_snoc, first_seen_snoc, <- Ht, <- Hd, <- Ha by done.
  rewrite Hu.
  split; [done|]. split; [|split; [|done]].
  - rewrite list_to_set_app_L. simpl.
    case_bool_decide as Hin; set_solver.
  - case_bool_decide as Hin.
    + rewrite not_elem_of_list_to_set, <- elem_of_first_seen in Hin.
      rewrite decide_False by done.
      rewrite comma_joined_snoc by (by apply first_seen_nonempty).
      by rewrite Hg.
    + rewrite elem_of_list_to_set, <- elem_of_first_seen in Hin.
      by rewrite decide_True.
Qed.

Section Lists.
Variable self : VariantsAnnotator.
Variable gtf_ : GtfParser.
Variable fresh : AnnotatedVariant.

Lemma annotate_transcript_holds cs l transcript l' :
  holds (end_ (bed fresh)) cs l →
  Forall (λ c, c_transcript c ≠ "NA") cs →
  annotate_transcript self gtf_ l transcript = Ok l' →
  holds (end_ (bed fresh))
        (cs ++ option_list (contribution_of self gtf_ fresh transcript)) l'.
Proof.
  intros Hholds Hids. unfold annotate_transcript, contribution_of.
  case_decide; [done|].
  destruct (skip_single_exon_genes_ self && _).
  { intros [= <-]. by rewrite app_nil_r. }
  pose proof (dispatch_related self (get_exons_from_transcript gtf_ transcript)
                (Locals.variant l) fresh (proj1 Hholds)) as Hrel.
  destruct (get_variant_overlaps_spliceregion _ _ (Locals.variant l))
    as [variant|e]; [|done].
  destruct (get_variant_overlaps_spliceregion _ _ fresh) as [r|e]; [|done].
  destruct Hrel as (Hout & (Hend & _) & _).
  injection Hout as Hannotation Hscore.
  rewrite (proj1 Hholds) in Hend.
  simpl. rewrite <- Hannotation, <- Hscore.
  destruct (decide (annotation variant ≠ "non_splice_region")); simpl.
  - case_decide as Hsome.
    + intros [= <-]. apply holds_next; [|done|done].
      intros ->. destruct Hholds as (_ & _ & _ & Ht & _). by destruct Hsome.
    + intros [= <-].
      assert (cs = []) as ->.
      { destruct cs as [|c cs]; [done|].
        destruct Hholds as (_ & _ & _ & Ht & _).
        rewrite Hsome in Ht.
        symmetry in Ht. apply comma_joined_NA in Ht as [Hc _].
        by apply Forall_cons_1 in Hids as [Hne _]. }
      by apply holds_first.
  - intros [= <-]. rewrite app_nil_r.
    destruct Hholds as (_ & ? & ? & ? & ? & ?). by repeat split.
Qed.

Lemma contribution_of_transcript transcript c :
  contribution_of self gtf_ fresh transcript = Some c →
  c_transcript c = transcript.
Proof.
  unfold contribution_of.
  destruct (skip_single_exon_genes_ self && _); [done|].
  destruct (get_variant_overlaps_spliceregion _ _ _); [|done].
  case_decide; [|done]. by intros [= <-].
Qed.

Lemma for_each_holds transcripts cs l l' :
  holds (end_ (bed fresh)) cs l →
  Forall (λ c, c_transcript c ≠ "NA") cs →
  "NA" ∉ transcripts →
  for_each (annotate_transcript self gtf_) transcripts l = Ok l' →
  holds (end_ (bed fresh)) (cs ++ omap (contribution_of self gtf_ fresh) transcripts) l'.
Proof.
  revert cs l. induction transcripts as [|t rest IH]; intros cs l Hholds Hids Hna.
  - simpl. intros [= <-]. by rewrite app_nil_r.
  - simpl. destruct (annotate_transcript self gtf_ l t) as [l1|e] eqn:Ht; [|done].
    simpl. intros Hrest.
    apply not_elem_of_cons in Hna as [Hne Hna].
    pose proof (annotate_transcript_holds cs l t l1 Hholds Hids Ht) as Hnext.
    destruct (contribution_of self gtf_ fresh t) as [c|] eqn:Hc; simpl in Hnext.
    + rewrite cons_middle, app_assoc. apply (IH _ l1); try done.
      apply Forall_app. split; [done|]. apply Forall_singleton.
      by rewrite (contribution_of_transcript t c Hc).
    + rewrite app_nil_r in Hnext. by apply (IH _ l1).
Qed.
End Lists.

(** The lists of an annotated record when no candidate is named "NA": the
    contributions of the splice relevant candidates in the order of the
    bin traversal, each gene once at its first occurrence. *)
Lemma record_lists_without_sentinel_id
    (self : VariantsAnnotator) (gtf_ : GtfParser) (scheme : BinScheme)
    (chr : string) (pos : Z) (final : AnnotatedVariant) :
  "NA" ∉ candidates self gtf_ scheme chr pos →
  annotate_record_with_transcripts self gtf_ scheme chr pos = Ok final →
  let cs := omap (contribution_of self gtf_ (new_AnnotatedVariant chr pos (pos + 1)))
                 (candidates self gtf_ scheme chr pos) in
  lists final
  = (comma_joined (first_seen (c_gene <$> cs)), comma_joined (c_transcript <$> cs),
     comma_joined (c_distance <$> cs), comma_joined (c_annotation <$> cs)).
Proof.
  intros Hna Hrun cs. rewrite annotate_record_candidates in Hrun.
  destruct (for_each _ _ _) as [l|e] eqn:Hloop; [|done].
  simpl in Hrun. injection Hrun as <-.
  apply (for_each_holds self gtf_ (new_AnnotatedVariant chr pos (pos + 1))
           _ [] _ l) in Hloop; [|by repeat split|done|done].
  destruct Hloop as (_ & _ & Hg & Ht & Hd & Ha).
  unfold lists, finish. simpl. by rewrite Hg, Ht, Hd, Ha.
Qed.

(** When no candidate is named "NA": the gene of [n] splice relevant
    transcripts of one gene stands once in the genes, and
    the three other lists have [n] entries each, in the order of the
    traversal. *)
Lemma one_gene_many_transcripts
    (self : VariantsAnnotator) (gtf_ : GtfParser) (scheme : BinScheme)
    (chr : string) (pos : Z) (final : AnnotatedVariant) (gene : string) :
  "NA" ∉ candidates self gtf_ scheme chr pos →
  annotate_record_with_transcripts self gtf_ scheme chr pos = Ok final →
  let cs := omap (contribution_of self gtf_ (new_AnnotatedVariant chr pos (pos + 1)))
                 (candidates self gtf_ scheme chr pos) in
  cs ≠ [] →
  Forall (λ c, c_gene c = gene) cs →
  lists final
  = (gene, comma_joined (c_transcript <$> cs),
     comma_joined (c_distance <$> cs), comma_joined (c_annotation <$> cs)).
Proof.
  intros Hna Hrun cs Hne Hgene.
  rewrite (record_lists_without_sentinel_id self gtf_ scheme chr pos final Hna Hrun).
  fold cs. rewrite (first_seen_one_gene gene); [done| |].
  - by destruct cs.
  - by apply Forall_fmap.
Qed.


(** * Further properties of the classifier *)

(** ** What an iteration and the scan decide *)

(** The scan returns what its first deciding iteration returns. *)
Lemma scan_first body indices variant :
  (scan body indices variant = variant ∧ ∀ j, j ∈ indices → body j = None) ∨
  ∃ before i after,
    indices = before ++ i :: after ∧
    (∀ j, j ∈ before → body j = None) ∧
    body i = Some (scan body indices variant).
Proof.
  induction indices as [|i rest IH]; simpl.
  - left. split; [done|]. intros j Hj. by apply elem_of_nil in Hj.
  - destruct (body i) as [r|] eqn:Hi.
    + right. exists [], i, rest. split; [done|]. split; [|done].
      intros j Hj. by apply elem_of_nil in Hj.
    + destruct IH as [[Hv Hnone]|(before & k & after & -> & Hnone & Hk)].
      * left. split; [done|]. intros j [->|Hj]%elem_of_cons; auto.
      * right. exists (i :: before), k, after. split; [done|]. split; [|done].
        intros j [->|Hj]%elem_of_cons; auto.
Qed.

Lemma seq_split_at (n : nat) before i after :
  seq 0 n = before ++ i :: after →
  (i < n)%nat ∧ before = seq 0 i.
Proof.
  intros Heq.
  assert (length before = i) as Hlen.
  { assert (seq 0 n !! length before = Some i) as Hl.
    { rewrite Heq. by rewrite list_lookup_middle. }
    apply lookup_seq in Hl. lia. }
  assert (i < n)%nat as Hi.
  { apply (f_equal length) in Heq.
    rewrite length_seq, length_app in Heq. simpl in Heq. lia. }
  split; [done|].
  apply (f_equal (take i)) in Heq.
  rewrite take_app_length' in Heq by done.
  rewrite <- Heq. by rewrite take_seq, Nat.min_l by lia.
Qed.

Ltac solve_conj :=
  by (repeat split; first [reflexivity | assumption | lia]).

Ltac solve_case :=
  unfold ps_case, ns_case;
  first [ left; solve_conj
        | right; left; solve_conj
        | right; right; left; solve_conj
        | right; right; right; left; solve_conj
        | right; right; right; right; solve_conj ].

Ltac case_hit :=
  match goal with
  | |- ∃ label a b, _ ∧
         set_variant_cis_effect_limits _ (set_result _ ?A ?B ?L) _ = _ =>
      exists L, A, B
  | |- ∃ label a b, _ ∧ set_result _ ?A ?B ?L = _ =>
      exists L, A, B
  end;
  split; [solve_case|reflexivity].

Lemma ps_iteration_decides self exons u i r :
  ps_iteration self exons u i = Some r →
  (r = u ∧ ps_rest_outside self exons u i) ∨
  ∃ label a b,
    ps_case self exons (end_ (bed u)) i label a b ∧
    r = decided exons u i label a b.
Proof.
  unfold ps_iteration, ps_whole_space, ps_proximity.
  destruct (all_exonic_space_ self) eqn:HE, (all_intronic_space_ self) eqn:HI;
    simpl; repeat case_bool_decide; repeat case_decide;
    intros [= <-]; first [by left | right; case_hit].
Qed.

Lemma ns_iteration_decides self exons u i r :
  ns_iteration self exons u i = Some r →
  (r = u ∧ ns_rest_outside self exons u i) ∨
  ∃ label a b,
    ns_case self exons (end_ (bed u)) i label a b ∧
    r = decided exons u i label a b.
Proof.
  unfold ns_iteration, ns_whole_space, ns_proximity.
  destruct (all_exonic_space_ self) eqn:HE, (all_intronic_space_ self) eqn:HI;
    simpl; repeat case_bool_decide; repeat case_decide;
    intros [= <-]; first [by left | right; case_hit].
Qed.

(** An iteration that falls through has found no intron of
    [all_intronic_space_] after its exon. *)
Lemma ps_fallthrough_no_intron self exons u i :
  all_intronic_space_ self = true →
  i ≠ last_index exons →
  end_ (exons !!! i) < end_ (bed u) < start (exons !!! (i + 1)%nat) →
  ps_iteration self exons u i ≠ None.
Proof.
  intros HI Hi Hv. unfold ps_iteration, ps_whole_space. rewrite HI.
  destruct (all_exonic_space_ self && _); [done|].
  rewrite bool_decide_eq_true_2 by lia. done.
Qed.

Lemma ns_fallthrough_no_intron self exons u i :
  all_intronic_space_ self = true →
  i ≠ last_index exons →
  end_ (exons !!! (i + 1)%nat) < end_ (bed u) < start (exons !!! i) →
  ns_iteration self exons u i ≠ None.
Proof.
  intros HI Hi Hv. unfold ns_iteration, ns_whole_space. rewrite HI.
  destruct (all_exonic_space_ self && _); [done|].
  rewrite bool_decide_eq_true_2 by lia. done.
Qed.

Lemma outcome_decided exons u i label a b :
  outcome (decided exons u i label a b) = (label, num_to_str (Z.min a b)).
Proof.
  unfold decided. case_decide; [|done].
  by rewrite outcome_cis_limits.
Qed.

(** What the '+' procedure returns: the cleared variant, or what the first
    deciding iteration [i] wrote, every iteration before [i] having fallen
    through. *)
Lemma classify_ps_decides self exons variant :
  let u := reset_result variant in
  let r := get_variant_overlaps_spliceregion_ps self exons variant in
  r = u ∨
  ∃ i label a b,
    (i < length exons)%nat ∧
    ¬ ps_outside_transcript exons u ∧
    (∀ j, (j < i)%nat → ps_iteration self exons u j = None) ∧
    ps_case self exons (end_ (bed variant)) i label a b ∧
    r = decided exons u i label a b.
Proof.
  intros u r. unfold r, get_variant_overlaps_spliceregion_ps. fold u.
  case_decide as Hout; [by left|].
  destruct (scan_first (ps_iteration self exons u) (seq 0 (length exons)) u)
    as [[-> _]|(before & i & after & Hsplit & Hnone & Hi)]; [by left|].
  apply seq_split_at in Hsplit as [Hlt ->].
  apply ps_iteration_decides in Hi as [[-> _]|(label & a & b & Hcase & Hr)];
    [by left|].
  right. exists i, label, a, b. repeat split; try done.
  intros j Hj. apply Hnone. apply elem_of_seq. lia.
Qed.

Lemma classify_ns_decides self exons variant :
  let u := reset_result variant in
  let r := get_variant_overlaps_spliceregion_ns self exons variant in
  r = u ∨
  ∃ i label a b,
    (i < length exons)%nat ∧
    ¬ ns_outside_transcript exons u ∧
    (∀ j, (j < i)%nat → ns_iteration self exons u j = None) ∧
    ns_case self exons (end_ (bed variant)) i label a b ∧
    r = decided exons u i label a b.
Proof.
  intros u r. unfold r, get_variant_overlaps_spliceregion_ns. fold u.
  case_decide as Hout; [by left|].
  destruct (scan_first (ns_iteration self exons u) (seq 0 (length exons)) u)
    as [[-> _]|(before & i & after & Hsplit & Hnone & Hi)]; [by left|].
  apply seq_split_at in Hsplit as [Hlt ->].
  apply ns_iteration_decides in Hi as [[-> _]|(label & a & b & Hcase & Hr)];
    [by left|].
  right. exists i, label, a, b. repeat split; try done.
  intros j Hj. apply Hnone. apply elem_of_seq. lia.
Qed.

(** ** Labels, scores and geometry *)

Lemma ps_case_label self exons v i label a b :
  ps_case self exons v i label a b →
  label ∈ [exonic; intronic; splicing_exonic; splicing_intronic] ∧
  0 <= Z.min a b.
Proof.
  unfold ps_case. intros Hc. split.
  - rewrite !elem_of_cons. naive_solver.
  - lia.
Qed.

Lemma ns_case_label self exons v i label a b :
  ns_case self exons v i label a b →
  label ∈ [exonic; intronic; splicing_exonic; splicing_intronic] ∧
  0 <= Z.min a b.
Proof.
  unfold ns_case. intros Hc. split.
  - rewrite !elem_of_cons. naive_solver.
  - lia.
Qed.

Lemma num_to_str_not_sentinel n : 0 <= n → num_to_str n ≠ "-1".
Proof.
  intros Hn Heq. change "-1"%string with (num_to_str (-1)) in Heq.
  apply (inj pretty) in Heq. lia.
Qed.

Lemma label_not_sentinel label :
  label ∈ [exonic; intronic; splicing_exonic; splicing_intronic] →
  label ≠ "non_splice_region".
Proof. rewrite !elem_of_cons, elem_of_nil. intros [->|[->|[->|[->|[]]]]]; done. Qed.

(** A returned variant is the cleared one or carries one of the four
    labels with the text of a non-negative score. *)
Lemma classified_or_cleared self exons variant r :
  r = get_variant_overlaps_spliceregion_ps self exons variant ∨
  r = get_variant_overlaps_spliceregion_ns self exons variant →
  outcome r = ("non_splice_region", "-1")%string ∨
  ∃ label n,
    label ∈ [exonic; intronic; splicing_exonic; splicing_intronic] ∧
    0 <= n ∧ outcome r = (label, num_to_str n).
Proof.
  intros [-> | ->].
  - destruct (classify_ps_decides self exons variant)
      as [->|(i & label & a & b & _ & _ & _ & Hcase & ->)]; [by left|].
    right. apply ps_case_label in Hcase as [??].
    exists label, (Z.min a b). by rewrite outcome_decided.
  - destruct (classify_ns_decides self exons variant)
      as [->|(i & label & a & b & _ & _ & _ & Hcase & ->)]; [by left|].
    right. apply ns_case_label in Hcase as [??].
    exists label, (Z.min a b). by rewrite outcome_decided.
Qed.

(** The score "-1" and the label [non_splice_region] go together: after
    either procedure, in every mode, the score is "-1" exactly when the
    label is [non_splice_region], and the label is one of the five the
    source writes. *)
Theorem sentinel_score_iff_non_splice_region
    (self : VariantsAnnotator) (exons : list BED) (variant : AnnotatedVariant) :
  let p := get_variant_overlaps_spliceregion_ps self exons variant in
  let n := get_variant_overlaps_spliceregion_ns self exons variant in
  (score p = "-1" ↔ annotation p = "non_splice_region") ∧
  (score n = "-1" ↔ annotation n = "non_splice_region") ∧
  annotation p ∈ [non_splice_region; exonic; intronic;
                  splicing_exonic; splicing_intronic] ∧
  annotation n ∈ [non_splice_region; exonic; intronic;
                  splicing_exonic; splicing_intronic].
Proof.
  intros p n.
  assert (∀ r,
    r = get_variant_overlaps_spliceregion_ps self exons variant ∨
    r = get_variant_overlaps_spliceregion_ns self exons variant →
    (score r = "-1" ↔ annotation r = "non_splice_region") ∧
    annotation r ∈ [non_splice_region; exonic; intronic;
                    splicing_exonic; splicing_intronic]) as Hboth.
  { intros r Hr.
    destruct (classified_or_cleared self exons variant r Hr)
      as [[= Ha Hs]|(label & k & Hl & Hk & [= Ha Hs])].
    - rewrite Ha, Hs. split; [done|]. left.
    - rewrite Ha, Hs. split.
      + split; intros Heq.
        * by apply num_to_str_not_sentinel in Heq.
        * by apply label_not_sentinel in Hl.
      + by right. }
  destruct (Hboth p (or_introl eq_refl)) as [??].
  destruct (Hboth n (or_intror eq_refl)) as [??].
  done.
Qed.

Lemma inside_transcript_ps exons u :
  ¬ ps_outside_transcript exons u →
  start (exons !!! 0%nat) <= end_ (bed u) <= end_ (exons !!! last_index exons).
Proof. unfold ps_outside_transcript. lia. Qed.

Lemma inside_transcript_ns exons u :
  ¬ ns_outside_transcript exons u →
  start (exons !!! last_index exons) <= end_ (bed u) <= end_ (exons !!! 0%nat).
Proof. unfold ns_outside_transcript. lia. Qed.

(** What a label of the '+' procedure says about the variant.  Either the
    variant comes back as [non_splice_region] with score "-1", or the
    working coordinate lies between the start of the first and the end of
    the last listed exon and there is an exon [i] of the list for which it
    is in one of the five positions of [ps_case]: inside exon [i] under
    [all_exonic_space_] ([exonic]); strictly between exon [i] and exon
    [i+1] under [all_intronic_space_] ([intronic]); inside exon [i] within
    [exonic_min_distance_] of its start (not for the first exon) or of its
    end (not for the last exon) ([splicing_exonic]); strictly between exon
    [i-1] and exon [i] within [intronic_min_distance_] of the start of
    exon [i], or strictly between exon [i] and exon [i+1] within
    [intronic_min_distance_] of the end of exon [i]
    ([splicing_intronic]).  The score is the text of the smaller of the
    two distances to the flanking boundaries. *)
Theorem plus_strand_labels_are_sound
    (self : VariantsAnnotator) (exons : list BED) (variant : AnnotatedVariant) :
  let r := get_variant_overlaps_spliceregion_ps self exons variant in
  let v := end_ (bed variant) in
  outcome r = ("non_splice_region", "-1")%string ∨
  ∃ i label a b,
    (i < length exons)%nat ∧
    start (exons !!! 0%nat) <= v <= end_ (exons !!! last_index exons) ∧
    ps_case self exons v i label a b ∧
    outcome r = (label, num_to_str (Z.min a b)).
Proof.
  intros r v.
  destruct (classify_ps_decides self exons variant)
    as [Hr|(i & label & a & b & Hi & Hin & _ & Hcase & Hr)];
    fold r in Hr; rewrite Hr; [by left|].
  right. exists i, label, a, b.
  apply inside_transcript_ps in Hin.
  by rewrite outcome_decided.
Qed.

(** The same for the '-' procedure, with [ns_case]: the list runs from
    high to low coordinates, the intron after exon [i] lies between the
    end of exon [i+1] and the start of exon [i], and the first exon of the
    list has no splice site at its end, the last none at its start. *)
Theorem minus_strand_labels_are_sound
    (self : VariantsAnnotator) (exons : list BED) (variant : AnnotatedVariant) :
  let r := get_variant_overlaps_spliceregion_ns self exons variant in
  let v := end_ (bed variant) in
  outcome r = ("non_splice_region", "-1")%string ∨
  ∃ i label a b,
    (i < length exons)%nat ∧
    start (exons !!! last_index exons) <= v <= end_ (exons !!! 0%nat) ∧
    ns_case self exons v i label a b ∧
    outcome r = (label, num_to_str (Z.min a b)).
Proof.
  intros r v.
  destruct (classify_ns_decides self exons variant)
    as [Hr|(i & label & a & b & Hi & Hin & _ & Hcase & Hr)];
    fold r in Hr; rewrite Hr; [by left|].
  right. exists i, label, a, b.
  apply inside_transcript_ns in Hin.
  by rewrite outcome_decided.
Qed.

Lemma annotation_decided exons u i label a b :
  annotation (decided exons u i label a b) = label.
Proof. by pose proof (outcome_decided exons u i label a b) as [= -> _]. Qed.

Ltac case_labels :=
  unfold ps_case, ns_case, exonic, intronic, splicing_exonic, splicing_intronic;
  intros [(? & ?)|[(? & ?)|[(? & ?)|[(? & ?)|(? & ?)]]]];
  try discriminate.

Lemma ps_case_splicing_exonic self exons v i a b :
  ps_case self exons v i "splicing_exonic" a b →
  all_exonic_space_ self = false.
Proof. case_labels. tauto. Qed.

Lemma ns_case_splicing_exonic self exons v i a b :
  ns_case self exons v i "splicing_exonic" a b →
  all_exonic_space_ self = false.
Proof. case_labels. tauto. Qed.

Lemma ps_case_splicing_intronic self exons v i a b :
  ps_case self exons v i "splicing_intronic" a b →
  (i ≠ 0%nat ∧ end_ (exons !!! (i - 1)%nat) < v < start (exons !!! i)) ∨
  all_intronic_space_ self = false.
Proof. case_labels; tauto. Qed.

Lemma ns_case_splicing_intronic self exons v i a b :
  ns_case self exons v i "splicing_intronic" a b →
  (i ≠ 0%nat ∧ end_ (exons !!! i) < v < start (exons !!! (i - 1)%nat)) ∨
  all_intronic_space_ self = false.
Proof. case_labels; tauto. Qed.

(** The whole-space flags replace the splicing labels, they do not add to
    them: under [all_exonic_space_] no variant is labelled
    [splicing_exonic], and under [all_intronic_space_] none is labelled
    [splicing_intronic], by either procedure. *)
Theorem whole_space_flags_replace_splicing_labels
    (self : VariantsAnnotator) (exons : list BED) (variant : AnnotatedVariant) :
  let p := get_variant_overlaps_spliceregion_ps self exons variant in
  let n := get_variant_overlaps_spliceregion_ns self exons variant in
  (all_exonic_space_ self = true →
   annotation p ≠ "splicing_exonic" ∧ annotation n ≠ "splicing_exonic") ∧
  (all_intronic_space_ self = true →
   annotation p ≠ "splicing_intronic" ∧ annotation n ≠ "splicing_intronic").
Proof.
  intros p n. split; intros Hflag; split.
  - destruct (classify_ps_decides self exons variant)
      as [Hr|(i & label & a & b & _ & _ & _ & Hcase & Hr)];
      fold p in Hr; rewrite Hr; [done|].
    rewrite annotation_decided. intros ->.
    apply ps_case_splicing_exonic in Hcase. congruence.
  - destruct (classify_ns_decides self exons variant)
      as [Hr|(i & label & a & b & _ & _ & _ & Hcase & Hr)];
      fold n in Hr; rewrite Hr; [done|].
    rewrite annotation_decided. intros ->.
    apply ns_case_splicing_exonic in Hcase. congruence.
  - destruct (classify_ps_decides self exons variant)
      as [Hr|(i & label & a & b & Hi & _ & Hnone & Hcase & Hr)];
      fold p in Hr; rewrite Hr; [done|].
    rewrite annotation_decided. intros ->.
    apply ps_case_splicing_intronic in Hcase as [[Hi0 Hv]|?]; [|congruence].
    apply (ps_fallthrough_no_intron self exons (reset_result variant) (i - 1)).
    + done.
    + unfold last_index. lia.
    + by replace (i - 1 + 1)%nat with i by lia.
    + apply Hnone. lia.
  - destruct (classify_ns_decides self exons variant)
      as [Hr|(i & label & a & b & Hi & _ & Hnone & Hcase & Hr)];
      fold n in Hr; rewrite Hr; [done|].
    rewrite annotation_decided. intros ->.
    apply ns_case_splicing_intronic in Hcase as [[Hi0 Hv]|?]; [|congruence].
    apply (ns_fallthrough_no_intron self exons (reset_result variant) (i - 1)).
    + done.
    + unfold last_index. lia.
    + by replace (i - 1 + 1)%nat with i by lia.
    + apply Hnone. lia.
Qed.

(** ** The cis-effect limits in closed form *)

Lemma widen_by_fields variant limits :
  bed (widen_by variant limits) = bed variant ∧
  score (widen_by variant limits) = score variant ∧
  annotation (widen_by variant limits) = annotation variant ∧
  overlapping_genes (widen_by variant limits) = overlapping_genes variant ∧
  overlapping_transcripts (widen_by variant limits)
  = overlapping_transcripts variant ∧
  overlapping_distances (widen_by variant limits)
  = overlapping_distances variant.
Proof. by destruct limits as [[lo hi]|]. Qed.

Lemma variant_eq (v1 v2 : AnnotatedVariant) :
  bed v1 = bed v2 → score v1 = score v2 → annotation v1 = annotation v2 →
  cis_effect_start v1 = cis_effect_start v2 →
  cis_effect_end v1 = cis_effect_end v2 →
  overlapping_genes v1 = overlapping_genes v2 →
  overlapping_transcripts v1 = overlapping_transcripts v2 →
  overlapping_distances v1 = overlapping_distances v2 →
  v1 = v2.
Proof. destruct v1, v2. simpl. by intros -> -> -> -> -> -> -> ->. Qed.

Ltac cis_closed :=
  apply variant_eq; cis_cases; try done.

(** The calculator sets the window to the smallest one that contains the
    prior window and the two limits of [cis_limits_at]. *)
Lemma cis_limits_closed_form exons variant i :
  (i <= last_index exons)%nat →
  set_variant_cis_effect_limits exons variant i
  = widen_by variant (cis_limits_at exons i).
Proof.
  intros Hi. unfold cis_limits_at, exon_before, exon_after, widen_by.
  destruct (decide (i = last_index exons)) as [->|Hlast].
  - rewrite Nat.min_r by lia.
    destruct (decide (last_index exons = 0%nat)) as [H0|H0].
    + rewrite H0. apply variant_eq;
        unfold set_variant_cis_effect_limits, set_variant_cis_effect_limits_ps,
          set_variant_cis_effect_limits_ns; rewrite ?H0;
        repeat case_decide; simpl in *; try done; lia.
    + cis_closed.
  - rewrite Nat.min_l by lia.
    destruct (decide (i = 0%nat)) as [->|H0]; cis_closed.
Qed.

Lemma cis_limits_some_form exons i :
  ∃ limits, ∀ variant,
    set_variant_cis_effect_limits exons variant i = widen_by variant limits.
Proof.
  unfold set_variant_cis_effect_limits.
  destruct (decide (strand (exons !!! 0%nat) = "+")) as [Hp|Hp];
    [|destruct (decide (strand (exons !!! 0%nat) = "-")) as [Hn|Hn]].
  - exists (Some (start (exons !!! (if decide (i ≠ 0%nat) then (i - 1)%nat else 0%nat)),
                  end_ (exons !!! (if decide (i ≠ last_index exons)
                                   then (i + 1)%nat else last_index exons)))).
    intros variant. unfold widen_by, set_variant_cis_effect_limits_ps.
    apply variant_eq; repeat case_decide; simpl in *; try done; lia.
  - exists (Some (start (exons !!! (if decide (i ≠ last_index exons)
                                    then (i + 1)%nat else last_index exons)),
                  end_ (exons !!! (if decide (i ≠ 0%nat) then (i - 1)%nat else 0%nat)))).
    intros variant. unfold widen_by, set_variant_cis_effect_limits_ns.
    apply variant_eq; repeat case_decide; simpl in *; try done; lia.
  - by exists None.
Qed.

Lemma widen_by_comm variant limits1 limits2 :
  widen_by (widen_by variant limits1) limits2
  = widen_by (widen_by variant limits2) limits1.
Proof.
  destruct limits1 as [[lo1 hi1]|], limits2 as [[lo2 hi2]|]; try done.
  apply variant_eq; simpl; try done; lia.
Qed.

Lemma widen_by_idem variant limits :
  widen_by (widen_by variant limits) limits = widen_by variant limits.
Proof.
  destruct limits as [[lo hi]|]; [|done].
  apply variant_eq; simpl; try done; lia.
Qed.

(** The cis-effect limit calculator composes like a union of intervals:
    applying it again at the same exon changes nothing, and two
    applications, at any exons of any two transcripts, give the same
    variant in either order. *)
Theorem cis_effect_limits_compose
    (exons1 exons2 : list BED) (variant : AnnotatedVariant) (i j : nat) :
  set_variant_cis_effect_limits exons1
    (set_variant_cis_effect_limits exons1 variant i) i
  = set_variant_cis_effect_limits exons1 variant i ∧
  set_variant_cis_effect_limits exons2
    (set_variant_cis_effect_limits exons1 variant i) j
  = set_variant_cis_effect_limits exons1
      (set_variant_cis_effect_limits exons2 variant j) i.
Proof.
  destruct (cis_limits_some_form exons1 i) as [l1 H1].
  destruct (cis_limits_some_form exons2 j) as [l2 H2].
  rewrite !H1, !H2. split; [apply widen_by_idem|apply widen_by_comm].
Qed.

(** ** What the classifier leaves alone *)

Lemma decided_frame exons u i label a b :
  bed (decided exons u i label a b) = bed u ∧
  overlapping_genes (decided exons u i label a b) = overlapping_genes u ∧
  overlapping_transcripts (decided exons u i label a b)
  = overlapping_transcripts u ∧
  overlapping_distances (decided exons u i label a b)
  = overlapping_distances u ∧
  (label ≠ splicing_exonic → label ≠ splicing_intronic →
   cis_effect_start (decided exons u i label a b) = cis_effect_start u ∧
   cis_effect_end (decided exons u i label a b) = cis_effect_end u).
Proof.
  unfold decided. case_decide as Hl.
  - destruct (cis_limits_some_form exons i) as [l ->].
    destruct (widen_by_fields (set_result u a b label) l)
      as (-> & _ & _ & -> & -> & ->).
    repeat split; try done; tauto.
  - done.
Qed.

(** Neither procedure touches the coordinates of the variant or its three
    lists, and only the two splicing labels come with a change of the
    cis-effect window: a variant that comes back as [non_splice_region],
    [exonic] or [intronic] has the window it had. *)
Theorem classifier_frame
    (self : VariantsAnnotator) (exons : list BED) (variant : AnnotatedVariant) :
  let untouched (r : AnnotatedVariant) :=
    bed r = bed variant ∧
    overlapping_genes r = overlapping_genes variant ∧
    overlapping_transcripts r = overlapping_transcripts variant ∧
    overlapping_distances r = overlapping_distances variant ∧
    (annotation r ≠ "splicing_exonic" → annotation r ≠ "splicing_intronic" →
     cis_effect_start r = cis_effect_start variant ∧
     cis_effect_end r = cis_effect_end variant) in
  untouched (get_variant_overlaps_spliceregion_ps self exons variant) ∧
  untouched (get_variant_overlaps_spliceregion_ns self exons variant).
Proof.
  intros untouched. unfold untouched. split.
  - destruct (classify_ps_decides self exons variant)
      as [->|(i & label & a & b & _ & _ & _ & _ & ->)]; [done|].
    rewrite annotation_decided. apply (decided_frame exons (reset_result variant)).
  - destruct (classify_ns_decides self exons variant)
      as [->|(i & label & a & b & _ & _ & _ & _ & ->)]; [done|].
    rewrite annotation_decided. apply (decided_frame exons (reset_result variant)).
Qed.

(** ** The window of a splice relevant variant *)

Lemma window_decided exons u i label a b lo hi :
  (i < length exons)%nat →
  label = splicing_exonic ∨ label = splicing_intronic →
  cis_limits_at exons i = Some (lo, hi) →
  cis_effect_start (decided exons u i label a b) = Z.min (cis_effect_start u) lo ∧
  cis_effect_end (decided exons u i label a b) = Z.max (cis_effect_end u) hi.
Proof.
  intros Hi Hl Hlim. unfold decided. rewrite decide_True by done.
  rewrite cis_limits_closed_form by (unfold last_index; lia).
  rewrite Hlim. done.
Qed.

(** When the dispatch returns a variant with one of the two splicing
    labels, there is an exon [i] of the list that the working coordinate
    is at a splice site of (in the sense of [ps_case] on '+' and of
    [ns_case] on '-'), and the window of the returned variant is the prior
    window extended to the limits of [cis_limits_at] at that exon: on '+'
    down to the start of the exon before [i] and up to the end of the exon
    after [i], on '-' down to the start of the exon after [i] and up to
    the end of the exon before [i], the first and the last exon of the
    list standing in for their missing neighbour. *)
Theorem splice_relevant_window
    (self : VariantsAnnotator) (exons : list BED) (variant r : AnnotatedVariant) :
  get_variant_overlaps_spliceregion self exons variant = Ok r →
  annotation r = "splicing_exonic" ∨ annotation r = "splicing_intronic" →
  ∃ i lo hi,
    (i < length exons)%nat ∧
    cis_limits_at exons i = Some (lo, hi) ∧
    cis_effect_start r = Z.min (cis_effect_start variant) lo ∧
    cis_effect_end r = Z.max (cis_effect_end variant) hi ∧
    ((strand (exons !!! 0%nat) = "+" ∧
      lo = start (exon_before exons i) ∧ hi = end_ (exon_after exons i) ∧
      ∃ a b, ps_case self exons (end_ (bed variant)) i (annotation r) a b) ∨
     (strand (exons !!! 0%nat) = "-" ∧
      lo = start (exon_after exons i) ∧ hi = end_ (exon_before exons i) ∧
      ∃ a b, ns_case self exons (end_ (bed variant)) i (annotation r) a b)).
Proof.
  unfold get_variant_overlaps_spliceregion.
  destruct (decide (strand (exons !!! 0%nat) = "+")) as [Hp|Hp];
    [|destruct (decide (strand (exons !!! 0%nat) = "-")) as [Hn|Hn]];
    [| |done]; intros [= <-] Hl.
  - destruct (classify_ps_decides self exons variant)
      as [Hr|(i & label & a & b & Hi & _ & _ & Hcase & Hr)];
      rewrite Hr in Hl |- *; [by destruct Hl|].
    rewrite annotation_decided in Hl |- *.
    assert (cis_limits_at exons i
            = Some (start (exon_before exons i), end_ (exon_after exons i)))
      as Hlim by (unfold cis_limits_at; by rewrite decide_True).
    destruct (window_decided exons (reset_result variant) i label a b _ _
                Hi Hl Hlim) as [Hs He].
    exists i, (start (exon_before exons i)), (end_ (exon_after exons i)).
    split; [done|]. split; [done|]. split; [exact Hs|]. split; [exact He|].
    left. repeat split; try done. by exists a, b.
  - destruct (classify_ns_decides self exons variant)
      as [Hr|(i & label & a & b & Hi & _ & _ & Hcase & Hr)];
      rewrite Hr in Hl |- *; [by destruct Hl|].
    rewrite annotation_decided in Hl |- *.
    assert (cis_limits_at exons i
            = Some (start (exon_after exons i), end_ (exon_before exons i)))
      as Hlim.
    { unfold cis_limits_at. rewrite decide_False by done. by rewrite decide_True. }
    destruct (window_decided exons (reset_result variant) i label a b _ _
                Hi Hl Hlim) as [Hs He].
    exists i, (start (exon_after exons i)), (end_ (exon_before exons i)).
    split; [done|]. split; [done|]. split; [exact Hs|]. split; [exact He|].
    right. repeat split; try done. by exists a, b.
Qed.

Lemma splice_relevant_window_witness :
  ∃ i lo hi,
    (i < 2)%nat ∧
    cis_limits_at (scenario_exons "+") i = Some (lo, hi) ∧
    100 = Z.min 198 lo ∧ 400 = Z.max 199 hi.
Proof.
  destruct (splice_relevant_window default_options (scenario_exons "+")
              (new_AnnotatedVariant "1" 198 199) _ eq_refl (or_introl eq_refl))
    as (i & lo & hi & Hi & Hlim & Hs & He & _).
  exists i, lo, hi. done.
Defined.

(** ** Single exon transcripts *)

Lemma single_exon_ps self exons variant :
  length exons = 1%nat →
  all_exonic_space_ self = false →
  get_variant_overlaps_spliceregion_ps self exons variant = reset_result variant.
Proof.
  intros Hone HE.
  destruct (classify_ps_decides self exons variant)
    as [Hr|(i & label & a & b & Hi & _ & _ & Hcase & _)]; [done|].
  assert (last_index exons = 0%nat) as Hlast by (unfold last_index; lia).
  unfold ps_case in Hcase. rewrite Hlast, HE in Hcase.
  assert (i = 0%nat) as -> by lia.
  naive_solver.
Qed.

Lemma single_exon_ns self exons variant :
  length exons = 1%nat →
  all_exonic_space_ self = false →
  get_variant_overlaps_spliceregion_ns self exons variant = reset_result variant.
Proof.
  intros Hone HE.
  destruct (classify_ns_decides self exons variant)
    as [Hr|(i & label & a & b & Hi & _ & _ & Hcase & _)]; [done|].
  assert (last_index exons = 0%nat) as Hlast by (unfold last_index; lia).
  unfold ns_case in Hcase. rewrite Hlast, HE in Hcase.
  assert (i = 0%nat) as -> by lia.
  naive_solver.
Qed.

(** A transcript with a single exon has no splice site: unless
    [all_exonic_space_] is set, both procedures clear the variant and
    nothing else, wherever it lies; so a single exon candidate of a known
    strand adds nothing to the lists of the record whether
    [skip_single_exon_genes_] is set or not. *)
Theorem single_exon_transcripts_never_splice_relevant
    (self : VariantsAnnotator) (gtf_ : GtfParser) (l : Locals.t)
    (transcript : string) :
  all_exonic_space_ self = false →
  length (get_exons_from_transcript gtf_ transcript) = 1%nat →
  let exons := get_exons_from_transcript gtf_ transcript in
  (∀ variant,
     get_variant_overlaps_spliceregion_ps self exons variant = reset_result variant ∧
     get_variant_overlaps_spliceregion_ns self exons variant = reset_result variant) ∧
  (strand (exons !!! 0%nat) = "+" ∨ strand (exons !!! 0%nat) = "-" →
   ∃ variant',
     annotate_transcript self gtf_ l transcript
     = Ok (Locals.mk (Locals.overlapping_genes l) (Locals.overlapping_transcripts l)
                     (Locals.overlapping_distances l) (Locals.annotations l)
                     (Locals.unique_genes l) variant') ∧
     (variant' = Locals.variant l ∨ variant' = reset_result (Locals.variant l))).
Proof.
  intros HE Hone exons. split.
  - intros variant. split; [by apply single_exon_ps|by apply single_exon_ns].
  - intros Hstrand. unfold annotate_transcript. fold exons.
    rewrite decide_False by (unfold exons; lia).
    destruct (skip_single_exon_genes_ self); simpl.
    + rewrite bool_decide_eq_true_2 by done.
      exists (Locals.variant l). split; [by destruct l|by left].
    + exists (reset_result (Locals.variant l)). split; [|by right].
      unfold get_variant_overlaps_spliceregion.
      destruct Hstrand as [Hs|Hs].
      * rewrite decide_True by done. rewrite single_exon_ps by done. done.
      * rewrite decide_False by (rewrite Hs; done).
        rewrite decide_True by done. rewrite single_exon_ns by done. done.
Qed.

Lemma single_exon_transcripts_never_splice_relevant_witness :
  get_variant_overlaps_spliceregion_ps (mkVariantsAnnotator 2 3 true false false)
    [mkBED "1" 100 200 "+"] (new_AnnotatedVariant "1" 198 199)
  = reset_result (new_AnnotatedVariant "1" 198 199).
Proof.
  apply (proj1 (single_exon_transcripts_never_splice_relevant
                  (mkVariantsAnnotator 2 3 true false false)
                  (example_store ["S"]) (initial_locals "1" 198) "S"
                  eq_refl eq_refl)).
Defined.

(** ** The classification of a transcript without overlaps *)

(** How a call of the '+' procedure went: it left at the transcript test;
    or every iteration fell through; or iteration [i] was the first not to
    fall through, leaving either by the shortcut or with a decision. *)
Lemma classify_ps_trace self exons variant :
  let u := reset_result variant in
  let r := get_variant_overlaps_spliceregion_ps self exons variant in
  (ps_outside_transcript exons u ∧ r = u) ∨
  (¬ ps_outside_transcript exons u ∧
   (∀ j, (j < length exons)%nat → ps_iteration self exons u j = None) ∧ r = u) ∨
  (¬ ps_outside_transcript exons u ∧
   ∃ i, (i < length exons)%nat ∧
        (∀ j, (j < i)%nat → ps_iteration self exons u j = None) ∧
        ((ps_rest_outside self exons u i ∧ r = u) ∨
         ∃ label a b, ps_case self exons (end_ (bed variant)) i label a b ∧
                      r = decided exons u i label a b)).
Proof.
  intros u r. unfold r, get_variant_overlaps_spliceregion_ps. fold u.
  case_decide as Hout; [by left|]. right.
  destruct (scan_first (ps_iteration self exons u) (seq 0 (length exons)) u)
    as [[-> Hnone]|(before & i & after & Hsplit & Hnone & Hi)].
  - left. split; [done|]. split; [|done].
    intros j Hj. apply Hnone, elem_of_seq. lia.
  - right. split; [done|].
    apply seq_split_at in Hsplit as [Hlt ->]. exists i. split; [done|]. split.
    { intros j Hj. apply Hnone, elem_of_seq. lia. }
    apply ps_iteration_decides in Hi as [[-> ?]|(label & a & b & ? & ->)].
    + by left.
    + right. by exists label, a, b.
Qed.

Lemma classify_ns_trace self exons variant :
  let u := reset_result variant in
  let r := get_variant_overlaps_spliceregion_ns self exons variant in
  (ns_outside_transcript exons u ∧ r = u) ∨
  (¬ ns_outside_transcript exons u ∧
   (∀ j, (j < length exons)%nat → ns_iteration self exons u j = None) ∧ r = u) ∨
  (¬ ns_outside_transcript exons u ∧
   ∃ i, (i < length exons)%nat ∧
        (∀ j, (j < i)%nat → ns_iteration self exons u j = None) ∧
        ((ns_rest_outside self exons u i ∧ r = u) ∨
         ∃ label a b, ns_case self exons (end_ (bed variant)) i label a b ∧
                      r = decided exons u i label a b)).
Proof.
  intros u r. unfold r, get_variant_overlaps_spliceregion_ns. fold u.
  case_decide as Hout; [by left|]. right.
  destruct (scan_first (ns_iteration self exons u) (seq 0 (length exons)) u)
    as [[-> Hnone]|(before & i & after & Hsplit & Hnone & Hi)].
  - left. split; [done|]. split; [|done].
    intros j Hj. apply Hnone, elem_of_seq. lia.
  - right. split; [done|].
    apply seq_split_at in Hsplit as [Hlt ->]. exists i. split; [done|]. split.
    { intros j Hj. apply Hnone, elem_of_seq. lia. }
    apply ns_iteration_decides in Hi as [[-> ?]|(label & a & b & ? & ->)].
    + by left.
    + right. by exists label, a, b.
Qed.

Lemma ascending_order exons i j :
  well_formed exons → disjoint_ascending exons →
  (i < j < length exons)%nat →
  end_ (exons !!! i) < start (exons !!! j).
Proof.
  intros Hwf Hdis [Hij Hj]. induction j as [|j IH]; [lia|].
  destruct (decide (i = j)) as [->|Hne].
  - replace (S j) with (j + 1)%nat by lia. apply Hdis. lia.
  - pose proof (IH ltac:(lia) ltac:(lia)) as Hprev.
    pose proof (Hwf j ltac:(lia)) as Hw.
    pose proof (Hdis j ltac:(lia)) as Hd.
    replace (S j) with (j + 1)%nat by lia. lia.
Qed.

Lemma descending_order exons i j :
  well_formed exons → disjoint_descending exons →
  (i < j < length exons)%nat →
  end_ (exons !!! j) < start (exons !!! i).
Proof.
  intros Hwf Hdis [Hij Hj]. induction j as [|j IH]; [lia|].
  destruct (decide (i = j)) as [->|Hne].
  - replace (S j) with (j + 1)%nat by lia. apply Hdis. lia.
  - pose proof (IH ltac:(lia) ltac:(lia)) as Hprev.
    pose proof (Hwf j ltac:(lia)) as Hw.
    pose proof (Hdis j ltac:(lia)) as Hd.
    replace (S j) with (j + 1)%nat by lia. lia.
Qed.

Ltac iteration_fires :=
  destruct (all_exonic_space_ _), (all_intronic_space_ _); simpl;
  repeat case_bool_decide; repeat case_decide; try done;
  first [ lia | naive_solver lia ].

Lemma ps_iteration_fires_inside self exons u k :
  start (exons !!! k) <= end_ (bed u) <= end_ (exons !!! k) →
  all_exonic_space_ self = true ∨
  (k ≠ 0%nat ∧ end_ (bed u) <= start (exons !!! k) + exonic_min_distance_ self) ∨
  (k ≠ last_index exons ∧
   end_ (exons !!! k) - exonic_min_distance_ self <= end_ (bed u)) →
  ps_iteration self exons u k ≠ None.
Proof.
  intros Hin Hnear.
  unfold ps_iteration, ps_whole_space, ps_proximity, ps_rest_outside.
  iteration_fires.
Qed.

Lemma ps_iteration_fires_after self exons u k :
  k ≠ last_index exons →
  end_ (exons !!! k) < end_ (bed u) < start (exons !!! (k + 1)%nat) →
  all_intronic_space_ self = true ∨
  end_ (bed u) <= end_ (exons !!! k) + intronic_min_distance_ self →
  ps_iteration self exons u k ≠ None.
Proof.
  intros Hk Hin Hnear.
  unfold ps_iteration, ps_whole_space, ps_proximity, ps_rest_outside.
  iteration_fires.
Qed.

Lemma ps_iteration_fires_before self exons u k :
  k ≠ 0%nat →
  end_ (exons !!! (k - 1)%nat) < end_ (bed u) < start (exons !!! k) →
  start (exons !!! k) - intronic_min_distance_ self <= end_ (bed u) →
  ps_iteration self exons u k ≠ None.
Proof.
  intros Hk Hin Hnear.
  unfold ps_iteration, ps_whole_space, ps_proximity, ps_rest_outside.
  iteration_fires.
Qed.

Section PlusClassification.
Variable self : VariantsAnnotator.
Variable exons : list BED.
Variable variant : AnnotatedVariant.
Hypothesis Hintronic : 0 <= intronic_min_distance_ self.
Hypothesis Hwf : well_formed exons.
Hypothesis Hdis : disjoint_ascending exons.

Local Abbreviation v := (end_ (bed variant)).
Local Abbreviation u := (reset_result variant).
Local Abbreviation r := (get_variant_overlaps_spliceregion_ps self exons variant).

Ltac compare_exons i j :=
  destruct (Nat.lt_trichotomy i j) as [?|[?|?]];
  [ pose proof (ascending_order exons i j Hwf Hdis ltac:(lia))
  | first [ subst i | subst j
          | match goal with H : i = j |- _ => rewrite ?H in * end ]
  | pose proof (ascending_order exons j i Hwf Hdis ltac:(lia)) ].

Lemma ps_inside_transcript k :
  (k < length exons)%nat →
  start (exons !!! k) <= v ∨ v <= end_ (exons !!! k) →
  (start (exons !!! k) <= v → start (exons !!! 0%nat) <= v) ∧
  (v <= end_ (exons !!! k) → v <= end_ (exons !!! last_index exons)).
Proof.
  intros Hk _. pose proof (Hwf k Hk) as Hwk.
  assert (last_index exons < length exons)%nat as Hl by (unfold last_index; lia).
  pose proof (Hwf 0%nat ltac:(lia)) as Hw0.
  pose proof (Hwf (last_index exons) Hl) as Hwl.
  split; intros Hv.
  - destruct (decide (k = 0%nat)) as [->|Hk0]; [done|].
    pose proof (ascending_order exons 0 k Hwf Hdis ltac:(lia)). lia.
  - destruct (decide (k = last_index exons)) as [->|Hkl]; [done|].
    pose proof (ascending_order exons k (last_index exons) Hwf Hdis
                  ltac:(unfold last_index in *; lia)). lia.
Qed.

Lemma ps_case_inside_exon k i label a b :
  (k < length exons)%nat → (i < length exons)%nat →
  start (exons !!! k) <= v <= end_ (exons !!! k) →
  ps_case self exons v i label a b →
  i = k ∧ a = v - start (exons !!! k) ∧ b = end_ (exons !!! k) - v ∧
  ((label = exonic ∧ all_exonic_space_ self = true) ∨
   (label = splicing_exonic ∧ all_exonic_space_ self = false ∧
    ((k ≠ 0%nat ∧ v <= start (exons !!! k) + exonic_min_distance_ self) ∨
     (k ≠ last_index exons ∧ end_ (exons !!! k) - exonic_min_distance_ self <= v)))).
Proof.
  intros Hk Hi Hin Hcase.
  pose proof (Hwf k Hk) as Hwk. pose proof (Hwf i Hi) as Hwi.
  unfold ps_case in Hcase.
  destruct Hcase as [H|[H|[H|[H|H]]]].
  - destruct H as (-> & HE & Hv & -> & ->).
    compare_exons i k; try lia. naive_solver.
  - destruct H as (-> & HI & Hl & Hv & -> & ->). exfalso.
    assert (i + 1 < length exons)%nat by (unfold last_index in Hl; lia).
    pose proof (Hwf (i + 1)%nat ltac:(lia)).
    compare_exons k (i + 1)%nat; try lia.
    compare_exons k i; lia.
  - destruct H as (-> & HE & Hv & Hnear & -> & ->).
    compare_exons i k; try lia. naive_solver.
  - destruct H as (-> & Hi0 & Hv & Hnear & -> & ->). exfalso.
    pose proof (Hwf (i - 1)%nat ltac:(lia)).
    compare_exons k i; try lia.
    compare_exons k (i - 1)%nat; lia.
  - destruct H as (-> & HI & Hl & Hv & Hnear & -> & ->). exfalso.
    assert (i + 1 < length exons)%nat by (unfold last_index in Hl; lia).
    pose proof (Hwf (i + 1)%nat ltac:(lia)).
    compare_exons k (i + 1)%nat; try lia.
    compare_exons k i; lia.
Qed.

Lemma ps_early_not_before k i :
  (k < length exons)%nat → (i < length exons)%nat →
  start (exons !!! k) <= v →
  ps_rest_outside self exons u i →
  (k < i)%nat.
Proof.
  intros Hk Hi Hv Hearly. unfold ps_rest_outside in Hearly. simpl in Hearly.
  pose proof (Hwf i Hi) as Hwi.
  compare_exons i k; lia.
Qed.

Lemma ps_inside_exon k :
  (k < length exons)%nat →
  start (exons !!! k) <= v <= end_ (exons !!! k) →
  outcome r =
    if all_exonic_space_ self
    then (exonic, num_to_str (Z.min (v - start (exons !!! k)) (end_ (exons !!! k) - v)))
    else if decide ((k ≠ 0%nat ∧ v <= start (exons !!! k) + exonic_min_distance_ self) ∨
                    (k ≠ last_index exons ∧
                     end_ (exons !!! k) - exonic_min_distance_ self <= v))
    then (splicing_exonic,
          num_to_str (Z.min (v - start (exons !!! k)) (end_ (exons !!! k) - v)))
    else ("non_splice_region", "-1")%string.
Proof.
  intros Hk Hin.
  assert (∀ n, (∀ j, (j < n)%nat → ps_iteration self exons u j = None) →
               (k < n)%nat →
               all_exonic_space_ self = true ∨
               (k ≠ 0%nat ∧ v <= start (exons !!! k) + exonic_min_distance_ self) ∨
               (k ≠ last_index exons ∧
                end_ (exons !!! k) - exonic_min_distance_ self <= v) → False)
    as Hfires.
  { intros n Hnone Hkn Hnear.
    by apply (ps_iteration_fires_inside self exons u k Hin Hnear), Hnone. }
  assert (outcome u =
    (if all_exonic_space_ self
     then (exonic, num_to_str (Z.min (v - start (exons !!! k)) (end_ (exons !!! k) - v)))
     else if decide ((k ≠ 0%nat ∧ v <= start (exons !!! k) + exonic_min_distance_ self) ∨
                     (k ≠ last_index exons ∧
                      end_ (exons !!! k) - exonic_min_distance_ self <= v))
     then (splicing_exonic,
           num_to_str (Z.min (v - start (exons !!! k)) (end_ (exons !!! k) - v)))
     else ("non_splice_region", "-1")%string) ∨
    all_exonic_space_ self = true ∨
               (k ≠ 0%nat ∧ v <= start (exons !!! k) + exonic_min_distance_ self) ∨
               (k ≠ last_index exons ∧
                end_ (exons !!! k) - exonic_min_distance_ self <= v)) as Hcleared.
  { destruct (all_exonic_space_ self); [by right; left|].
    case_decide; [right; by right|by left]. }
  destruct (classify_ps_trace self exons variant)
    as [[Hout Hr]|[(_ & Hnone & Hr)|(_ & i & Hi & Hnone & [[Hearly Hr]|(label & a & b & Hcase & Hr)])]];
    rewrite Hr.
  - exfalso. unfold ps_outside_transcript in Hout. simpl in Hout.
    destruct (ps_inside_transcript k Hk (or_introl (proj1 Hin))) as [H0 Hl].
    lia.
  - destruct Hcleared as [?|Hnear]; [done|]. exfalso.
    by apply (Hfires (length exons) Hnone).
  - destruct Hcleared as [?|Hnear]; [done|]. exfalso.
    apply (Hfires i Hnone); [|done].
    exact (ps_early_not_before k i Hk Hi (proj1 Hin) Hearly).
  - rewrite outcome_decided.
    destruct (ps_case_inside_exon k i label a b Hk Hi Hin Hcase)
      as (-> & -> & -> & [[-> HE]|(-> & HE & Hnear)]); rewrite HE; [done|].
    by rewrite decide_True.
Qed.

Lemma ps_case_in_intron k i label a b :
  (k + 1 < length exons)%nat → (i < length exons)%nat →
  end_ (exons !!! k) < v < start (exons !!! (k + 1)%nat) →
  (∀ j, (j < i)%nat → ps_iteration self exons u j = None) →
  ps_case self exons v i label a b →
  a = v - end_ (exons !!! k) ∧ b = start (exons !!! (k + 1)%nat) - v ∧
  ((label = intronic ∧ all_intronic_space_ self = true) ∨
   (label = splicing_intronic ∧ all_intronic_space_ self = false ∧
    (v <= end_ (exons !!! k) + intronic_min_distance_ self ∨
     start (exons !!! (k + 1)%nat) - intronic_min_distance_ self <= v))).
Proof.
  intros Hk Hi Hin Hnone Hcase.
  pose proof (Hwf k ltac:(lia)) as Hwk. pose proof (Hwf i Hi) as Hwi.
  pose proof (Hwf (k + 1)%nat Hk) as Hwk1.
  unfold ps_case in Hcase.
  destruct Hcase as [H|[H|[H|[H|H]]]].
  - destruct H as (-> & HE & Hv & -> & ->). exfalso.
    compare_exons i k; try lia.
    compare_exons i (k + 1)%nat; lia.
  - destruct H as (-> & HI & Hl & Hv & -> & ->).
    assert (i + 1 < length exons)%nat by (unfold last_index in Hl; lia).
    pose proof (Hwf (i + 1)%nat ltac:(lia)).
    compare_exons i k.
    + exfalso. compare_exons (i + 1)%nat k; lia.
    + naive_solver.
    + exfalso. compare_exons i (k + 1)%nat; lia.
  - destruct H as (-> & HE & Hv & Hnear & -> & ->). exfalso.
    compare_exons i k; try lia.
    compare_exons i (k + 1)%nat; lia.
  - destruct H as (-> & Hi0 & Hv & Hnear & -> & ->).
    pose proof (Hwf (i - 1)%nat ltac:(lia)).
    compare_exons (i - 1)%nat k.
    + exfalso. compare_exons i k; lia.
    + replace (i - 1 + 1)%nat with i in * by lia.
      split; [done|]. split; [done|]. right. split; [done|]. split; [|lia].
      destruct (all_intronic_space_ self) eqn:HI; [exfalso|done].
      apply (ps_fallthrough_no_intron self exons u (i - 1)%nat HI).
      * unfold last_index. lia.
      * simpl. by replace (i - 1 + 1)%nat with i by lia.
      * apply Hnone. lia.
    + exfalso. compare_exons (i - 1)%nat (k + 1)%nat; lia.
  - destruct H as (-> & HI & Hl & Hv & Hnear & -> & ->).
    assert (i + 1 < length exons)%nat by (unfold last_index in Hl; lia).
    pose proof (Hwf (i + 1)%nat ltac:(lia)).
    compare_exons i k.
    + exfalso. compare_exons (i + 1)%nat k; lia.
    + naive_solver.
    + exfalso. compare_exons i (k + 1)%nat; lia.
Qed.

Lemma ps_in_intron k :
  (k + 1 < length exons)%nat →
  end_ (exons !!! k) < v < start (exons !!! (k + 1)%nat) →
  outcome r =
    if all_intronic_space_ self
    then (intronic,
          num_to_str (Z.min (v - end_ (exons !!! k)) (start (exons !!! (k + 1)%nat) - v)))
    else if decide (v <= end_ (exons !!! k) + intronic_min_distance_ self ∨
                    start (exons !!! (k + 1)%nat) - intronic_min_distance_ self <= v)
    then (splicing_intronic,
          num_to_str (Z.min (v - end_ (exons !!! k)) (start (exons !!! (k + 1)%nat) - v)))
    else ("non_splice_region", "-1")%string.
Proof.
  intros Hk Hin.
  pose proof (Hwf k ltac:(lia)) as Hwk.
  assert (k ≠ last_index exons) as Hkl by (unfold last_index; lia).
  assert (∀ n, (∀ j, (j < n)%nat → ps_iteration self exons u j = None) →
               (k < n)%nat →
               (k + 1 < n)%nat ∨
               ¬ (start (exons !!! (k + 1)%nat) - intronic_min_distance_ self <= v) ∨
               all_intronic_space_ self = true ∨
               v <= end_ (exons !!! k) + intronic_min_distance_ self →
               all_intronic_space_ self = true ∨
               v <= end_ (exons !!! k) + intronic_min_distance_ self ∨
               start (exons !!! (k + 1)%nat) - intronic_min_distance_ self <= v →
               False)
    as Hfires.
  { intros n Hnone Hkn Hk1 Hnear.
    destruct (decide (all_intronic_space_ self = true ∨
                      v <= end_ (exons !!! k) + intronic_min_distance_ self))
      as [Hat|Hnot].
    - by apply (ps_iteration_fires_after self exons u k Hkl Hin Hat), Hnone.
    - assert (start (exons !!! (k + 1)%nat) - intronic_min_distance_ self <= v)
        as Hb by tauto.
      apply (ps_iteration_fires_before self exons u (k + 1)%nat).
      + lia.
      + simpl. by replace (k + 1 - 1)%nat with k by lia.
      + done.
      + apply Hnone. destruct Hk1 as [?|[?|?]]; [done|done|tauto]. }
  assert (outcome u =
    (if all_intronic_space_ self
     then (intronic,
           num_to_str (Z.min (v - end_ (exons !!! k)) (start (exons !!! (k + 1)%nat) - v)))
     else if decide (v <= end_ (exons !!! k) + intronic_min_distance_ self ∨
                     start (exons !!! (k + 1)%nat) - intronic_min_distance_ self <= v)
     then (splicing_intronic,
           num_to_str (Z.min (v - end_ (exons !!! k)) (start (exons !!! (k + 1)%nat) - v)))
     else ("non_splice_region", "-1")%string) ∨
    all_intronic_space_ self = true ∨
    v <= end_ (exons !!! k) + intronic_min_distance_ self ∨
    start (exons !!! (k + 1)%nat) - intronic_min_distance_ self <= v) as Hcleared.
  { destruct (all_intronic_space_ self); [by right; left|].
    case_decide; [right; right; tauto|by left]. }
  destruct (classify_ps_trace self exons variant)
    as [[Hout Hr]|[(_ & Hnone & Hr)|(_ & i & Hi & Hnone & [[Hearly Hr]|(label & a & b & Hcase & Hr)])]];
    rewrite Hr.
  - exfalso. unfold ps_outside_transcript in Hout. simpl in Hout.
    pose proof (Hwf (k + 1)%nat Hk).
    assert (start (exons !!! k) <= v) as Hsk by lia.
    assert (v <= end_ (exons !!! (k + 1)%nat)) as Hek by lia.
    assert (k < length exons)%nat as Hk0 by lia.
    destruct (ps_inside_transcript k Hk0 (or_introl Hsk)) as [H0 _].
    destruct (ps_inside_transcript (k + 1)%nat Hk (or_intror Hek)) as [_ Hl].
    lia.
  - destruct Hcleared as [?|Hnear]; [done|]. exfalso.
    apply (Hfires (length exons) Hnone); [lia|by left|done].
  - destruct Hcleared as [?|Hnear]; [done|]. exfalso.
    assert (start (exons !!! k) <= v) as Hsk by lia.
    assert (k < length exons)%nat as Hk0 by lia.
    pose proof (ps_early_not_before k i Hk0 Hi Hsk Hearly) as Hki.
    apply (Hfires i Hnone Hki); [|done].
    destruct (decide (i = k + 1)%nat) as [->|?]; [|left; lia].
    right. left. unfold ps_rest_outside in Hearly. simpl in Hearly. lia.
  - rewrite outcome_decided.
    destruct (ps_case_in_intron k i label a b Hk Hi Hin Hnone Hcase)
      as (-> & -> & [[-> HI]|(-> & HI & Hnear)]); rewrite HI; [done|].
    by rewrite decide_True.
Qed.
End PlusClassification.

Lemma ns_iteration_fires_inside self exons u k :
  start (exons !!! k) <= end_ (bed u) <= end_ (exons !!! k) →
  all_exonic_space_ self = true ∨
  (k ≠ last_index exons ∧
   end_ (bed u) <= start (exons !!! k) + exonic_min_distance_ self) ∨
  (k ≠ 0%nat ∧ end_ (exons !!! k) - exonic_min_distance_ self <= end_ (bed u)) →
  ns_iteration self exons u k ≠ None.
Proof.
  intros Hin Hnear.
  unfold ns_iteration, ns_whole_space, ns_proximity, ns_rest_outside.
  iteration_fires.
Qed.

Lemma ns_iteration_fires_after self exons u k :
  k ≠ last_index exons →
  end_ (exons !!! (k + 1)%nat) < end_ (bed u) < start (exons !!! k) →
  all_intronic_space_ self = true ∨
  start (exons !!! k) - intronic_min_distance_ self <= end_ (bed u) →
  ns_iteration self exons u k ≠ None.
Proof.
  intros Hk Hin Hnear.
  unfold ns_iteration, ns_whole_space, ns_proximity, ns_rest_outside.
  iteration_fires.
Qed.

Lemma ns_iteration_fires_before self exons u k :
  k ≠ 0%nat →
  end_ (exons !!! k) < end_ (bed u) < start (exons !!! (k - 1)%nat) →
  end_ (bed u) <= end_ (exons !!! k) + intronic_min_distance_ self →
  ns_iteration self exons u k ≠ None.
Proof.
  intros Hk Hin Hnear.
  unfold ns_iteration, ns_whole_space, ns_proximity, ns_rest_outside.
  iteration_fires.
Qed.

Section MinusClassification.
Variable self : VariantsAnnotator.
Variable exons : list BED.
Variable variant : AnnotatedVariant.
Hypothesis Hintronic : 0 <= intronic_min_distance_ self.
Hypothesis Hwf : well_formed exons.
Hypothesis Hdis : disjoint_descending exons.

Local Abbreviation v := (end_ (bed variant)).
Local Abbreviation u := (reset_result variant).
Local Abbreviation r := (get_variant_overlaps_spliceregion_ns self exons variant).

Ltac compare_exons i j :=
  destruct (Nat.lt_trichotomy i j) as [?|[?|?]];
  [ pose proof (descending_order exons i j Hwf Hdis ltac:(lia))
  | first [ subst i | subst j
          | match goal with H : i = j |- _ => rewrite ?H in * end ]
  | pose proof (descending_order exons j i Hwf Hdis ltac:(lia)) ].

Lemma ns_inside_transcript k :
  (k < length exons)%nat →
  (start (exons !!! k) <= v → start (exons !!! last_index exons) <= v) ∧
  (v <= end_ (exons !!! k) → v <= end_ (exons !!! 0%nat)).
Proof.
  intros Hk. pose proof (Hwf k Hk) as Hwk.
  assert (last_index exons < length exons)%nat as Hl by (unfold last_index; lia).
  pose proof (Hwf 0%nat ltac:(lia)) as Hw0.
  pose proof (Hwf (last_index exons) Hl) as Hwl.
  split; intros Hv.
  - destruct (decide (k = last_index exons)) as [->|Hkl]; [done|].
    pose proof (descending_order exons k (last_index exons) Hwf Hdis
                  ltac:(unfold last_index in *; lia)). lia.
  - destruct (decide (k = 0%nat)) as [->|Hk0]; [done|].
    pose proof (descending_order exons 0 k Hwf Hdis ltac:(lia)). lia.
Qed.

Lemma ns_case_inside_exon k i label a b :
  (k < length exons)%nat → (i < length exons)%nat →
  start (exons !!! k) <= v <= end_ (exons !!! k) →
  ns_case self exons v i label a b →
  i = k ∧ a = v - start (exons !!! k) ∧ b = end_ (exons !!! k) - v ∧
  ((label = exonic ∧ all_exonic_space_ self = true) ∨
   (label = splicing_exonic ∧ all_exonic_space_ self = false ∧
    ((k ≠ last_index exons ∧ v <= start (exons !!! k) + exonic_min_distance_ self) ∨
     (k ≠ 0%nat ∧ end_ (exons !!! k) - exonic_min_distance_ self <= v)))).
Proof.
  intros Hk Hi Hin Hcase.
  pose proof (Hwf k Hk) as Hwk. pose proof (Hwf i Hi) as Hwi.
  unfold ns_case in Hcase.
  destruct Hcase as [H|[H|[H|[H|H]]]].
  - destruct H as (-> & HE & Hv & -> & ->).
    compare_exons i k; try lia. naive_solver.
  - destruct H as (-> & HI & Hl & Hv & -> & ->). exfalso.
    assert (i + 1 < length exons)%nat by (unfold last_index in Hl; lia).
    pose proof (Hwf (i + 1)%nat ltac:(lia)).
    compare_exons k (i + 1)%nat; try lia.
    compare_exons k i; lia.
  - destruct H as (-> & HE & Hv & Hnear & -> & ->).
    compare_exons i k; try lia. naive_solver.
  - destruct H as (-> & HI & Hl & Hv & Hnear & -> & ->). exfalso.
    assert (i + 1 < length exons)%nat by (unfold last_index in Hl; lia).
    pose proof (Hwf (i + 1)%nat ltac:(lia)).
    compare_exons k (i + 1)%nat; try lia.
    compare_exons k i; lia.
  - destruct H as (-> & Hi0 & Hv & Hnear & -> & ->). exfalso.
    pose proof (Hwf (i - 1)%nat ltac:(lia)).
    compare_exons k i; try lia.
    compare_exons k (i - 1)%nat; lia.
Qed.

Lemma ns_early_not_before k i :
  (k < length exons)%nat → (i < length exons)%nat →
  v <= end_ (exons !!! k) →
  ns_rest_outside self exons u i →
  (k < i)%nat.
Proof.
  intros Hk Hi Hv Hearly. unfold ns_rest_outside in Hearly. simpl in Hearly.
  pose proof (Hwf i Hi) as Hwi. pose proof (Hwf k Hk) as Hwk.
  compare_exons i k; lia.
Qed.

Lemma ns_inside_exon k :
  (k < length exons)%nat →
  start (exons !!! k) <= v <= end_ (exons !!! k) →
  outcome r =
    if all_exonic_space_ self
    then (exonic, num_to_str (Z.min (v - start (exons !!! k)) (end_ (exons !!! k) - v)))
    else if decide ((k ≠ last_index exons ∧
                     v <= start (exons !!! k) + exonic_min_distance_ self) ∨
                    (k ≠ 0%nat ∧ end_ (exons !!! k) - exonic_min_distance_ self <= v))
    then (splicing_exonic,
          num_to_str (Z.min (v - start (exons !!! k)) (end_ (exons !!! k) - v)))
    else ("non_splice_region", "-1")%string.
Proof.
  intros Hk Hin.
  assert (∀ n, (∀ j, (j < n)%nat → ns_iteration self exons u j = None) →
               (k < n)%nat →
               all_exonic_space_ self = true ∨
               (k ≠ last_index exons ∧
                v <= start (exons !!! k) + exonic_min_distance_ self) ∨
               (k ≠ 0%nat ∧ end_ (exons !!! k) - exonic_min_distance_ self <= v) →
               False)
    as Hfires.
  { intros n Hnone Hkn Hnear.
    by apply (ns_iteration_fires_inside self exons u k Hin Hnear), Hnone. }
  assert (outcome u =
    (if all_exonic_space_ self
     then (exonic, num_to_str (Z.min (v - start (exons !!! k)) (end_ (exons !!! k) - v)))
     else if decide ((k ≠ last_index exons ∧
                      v <= start (exons !!! k) + exonic_min_distance_ self) ∨
                     (k ≠ 0%nat ∧ end_ (exons !!! k) - exonic_min_distance_ self <= v))
     then (splicing_exonic,
           num_to_str (Z.min (v - start (exons !!! k)) (end_ (exons !!! k) - v)))
     else ("non_splice_region", "-1")%string) ∨
    all_exonic_space_ self = true ∨
    (k ≠ last_index exons ∧ v <= start (exons !!! k) + exonic_min_distance_ self) ∨
    (k ≠ 0%nat ∧ end_ (exons !!! k) - exonic_min_distance_ self <= v)) as Hcleared.
  { destruct (all_exonic_space_ self); [by right; left|].
    case_decide; [right; by right|by left]. }
  destruct (classify_ns_trace self exons variant)
    as [[Hout Hr]|[(_ & Hnone & Hr)|(_ & i & Hi & Hnone & [[Hearly Hr]|(label & a & b & Hcase & Hr)])]];
    rewrite Hr.
  - exfalso. unfold ns_outside_transcript in Hout. simpl in Hout.
    destruct (ns_inside_transcript k Hk) as [H0 Hl]. lia.
  - destruct Hcleared as [?|Hnear]; [done|]. exfalso.
    by apply (Hfires (length exons) Hnone).
  - destruct Hcleared as [?|Hnear]; [done|]. exfalso.
    apply (Hfires i Hnone); [|done].
    exact (ns_early_not_before k i Hk Hi (proj2 Hin) Hearly).
  - rewrite outcome_decided.
    destruct (ns_case_inside_exon k i label a b Hk Hi Hin Hcase)
      as (-> & -> & -> & [[-> HE]|(-> & HE & Hnear)]); rewrite HE; [done|].
    by rewrite decide_True.
Qed.

Lemma ns_case_in_intron k i label a b :
  (k + 1 < length exons)%nat → (i < length exons)%nat →
  end_ (exons !!! (k + 1)%nat) < v < start (exons !!! k) →
  (∀ j, (j < i)%nat → ns_iteration self exons u j = None) →
  ns_case self exons v i label a b →
  a = v - end_ (exons !!! (k + 1)%nat) ∧ b = start (exons !!! k) - v ∧
  ((label = intronic ∧ all_intronic_space_ self = true) ∨
   (label = splicing_intronic ∧ all_intronic_space_ self = false ∧
    (start (exons !!! k) - intronic_min_distance_ self <= v ∨
     v <= end_ (exons !!! (k + 1)%nat) + intronic_min_distance_ self))).
Proof.
  intros Hk Hi Hin Hnone Hcase.
  pose proof (Hwf k ltac:(lia)) as Hwk. pose proof (Hwf i Hi) as Hwi.
  pose proof (Hwf (k + 1)%nat Hk) as Hwk1.
  unfold ns_case in Hcase.
  destruct Hcase as [H|[H|[H|[H|H]]]].
  - destruct H as (-> & HE & Hv & -> & ->). exfalso.
    compare_exons i k; try lia.
    compare_exons i (k + 1)%nat; lia.
  - destruct H as (-> & HI & Hl & Hv & -> & ->).
    assert (i + 1 < length exons)%nat by (unfold last_index in Hl; lia).
    pose proof (Hwf (i + 1)%nat ltac:(lia)).
    compare_exons i k.
    + exfalso. compare_exons (i + 1)%nat k; lia.
    + naive_solver.
    + exfalso. compare_exons i (k + 1)%nat; lia.
  - destruct H as (-> & HE & Hv & Hnear & -> & ->). exfalso.
    compare_exons i k; try lia.
    compare_exons i (k + 1)%nat; lia.
  - destruct H as (-> & HI & Hl & Hv & Hnear & -> & ->).
    assert (i + 1 < length exons)%nat by (unfold last_index in Hl; lia).
    pose proof (Hwf (i + 1)%nat ltac:(lia)).
    compare_exons i k.
    + exfalso. compare_exons (i + 1)%nat k; lia.
    + naive_solver.
    + exfalso. compare_exons i (k + 1)%nat; lia.
  - destruct H as (-> & Hi0 & Hv & Hnear & -> & ->).
    pose proof (Hwf (i - 1)%nat ltac:(lia)).
    compare_exons (i - 1)%nat k.
    + exfalso. compare_exons i k; lia.
    + replace (i - 1 + 1)%nat with i in * by lia.
      split; [done|]. split; [done|]. right. split; [done|]. split; [|lia].
      destruct (all_intronic_space_ self) eqn:HI; [exfalso|done].
      apply (ns_fallthrough_no_intron self exons u (i - 1)%nat HI).
      * unfold last_index. lia.
      * simpl. by replace (i - 1 + 1)%nat with i by lia.
      * apply Hnone. lia.
    + exfalso. compare_exons (i - 1)%nat (k + 1)%nat; lia.
Qed.

Lemma ns_in_intron k :
  (k + 1 < length exons)%nat →
  end_ (exons !!! (k + 1)%nat) < v < start (exons !!! k) →
  outcome r =
    if all_intronic_space_ self
    then (intronic,
          num_to_str (Z.min (v - end_ (exons !!! (k + 1)%nat)) (start (exons !!! k) - v)))
    else if decide (start (exons !!! k) - intronic_min_distance_ self <= v ∨
                    v <= end_ (exons !!! (k + 1)%nat) + intronic_min_distance_ self)
    then (splicing_intronic,
          num_to_str (Z.min (v - end_ (exons !!! (k + 1)%nat)) (start (exons !!! k) - v)))
    else ("non_splice_region", "-1")%string.
Proof.
  intros Hk Hin.
  pose proof (Hwf k ltac:(lia)) as Hwk.
  pose proof (Hwf (k + 1)%nat Hk) as Hwk1.
  assert (k ≠ last_index exons) as Hkl by (unfold last_index; lia).
  assert (∀ n, (∀ j, (j < n)%nat → ns_iteration self exons u j = None) →
               (k < n)%nat →
               (k + 1 < n)%nat ∨
               ¬ (v <= end_ (exons !!! (k + 1)%nat) + intronic_min_distance_ self) ∨
               all_intronic_space_ self = true ∨
               start (exons !!! k) - intronic_min_distance_ self <= v →
               all_intronic_space_ self = true ∨
               start (exons !!! k) - intronic_min_distance_ self <= v ∨
               v <= end_ (exons !!! (k + 1)%nat) + intronic_min_distance_ self →
               False)
    as Hfires.
  { intros n Hnone Hkn Hk1 Hnear.
    destruct (decide (all_intronic_space_ self = true ∨
                      start (exons !!! k) - intronic_min_distance_ self <= v))
      as [Hat|Hnot].
    - by apply (ns_iteration_fires_after self exons u k Hkl Hin Hat), Hnone.
    - assert (v <= end_ (exons !!! (k + 1)%nat) + intronic_min_distance_ self)
        as Hb by tauto.
      apply (ns_iteration_fires_before self exons u (k + 1)%nat).
      + lia.
      + simpl. by replace (k + 1 - 1)%nat with k by lia.
      + done.
      + apply Hnone. destruct Hk1 as [?|[?|?]]; [done|done|tauto]. }
  assert (outcome u =
    (if all_intronic_space_ self
     then (intronic,
           num_to_str (Z.min (v - end_ (exons !!! (k + 1)%nat)) (start (exons !!! k) - v)))
     else if decide (start (exons !!! k) - intronic_min_distance_ self <= v ∨
                     v <= end_ (exons !!! (k + 1)%nat) + intronic_min_distance_ self)
     then (splicing_intronic,
           num_to_str (Z.min (v - end_ (exons !!! (k + 1)%nat)) (start (exons !!! k) - v)))
     else ("non_splice_region", "-1")%string) ∨
    all_intronic_space_ self = true ∨
    start (exons !!! k) - intronic_min_distance_ self <= v ∨
    v <= end_ (exons !!! (k + 1)%nat) + intronic_min_distance_ self) as Hcleared.
  { destruct (all_intronic_space_ self); [by right; left|].
    case_decide; [right; right; tauto|by left]. }
  destruct (classify_ns_trace self exons variant)
    as [[Hout Hr]|[(_ & Hnone & Hr)|(_ & i & Hi & Hnone & [[Hearly Hr]|(label & a & b & Hcase & Hr)])]];
    rewrite Hr.
  - exfalso. unfold ns_outside_transcript in Hout. simpl in Hout.
    assert (v <= end_ (exons !!! k)) as Hek by lia.
    assert (start (exons !!! (k + 1)%nat) <= v) as Hsk by lia.
    assert (k < length exons)%nat as Hk0 by lia.
    destruct (ns_inside_transcript k Hk0) as [_ H0].
    destruct (ns_inside_transcript (k + 1)%nat Hk) as [Hl _].
    lia.
  - destruct Hcleared as [?|Hnear]; [done|]. exfalso.
    apply (Hfires (length exons) Hnone); [lia|by left|done].
  - destruct Hcleared as [?|Hnear]; [done|]. exfalso.
    assert (v <= end_ (exons !!! k)) as Hek by lia.
    assert (k < length exons)%nat as Hk0 by lia.
    pose proof (ns_early_not_before k i Hk0 Hi Hek Hearly) as Hki.
    apply (Hfires i Hnone Hki); [|done].
    destruct (decide (i = k + 1)%nat) as [->|?]; [|left; lia].
    right. left. unfold ns_rest_outside in Hearly. simpl in Hearly. lia.
  - rewrite outcome_decided.
    destruct (ns_case_in_intron k i label a b Hk Hi Hin Hnone Hcase)
      as (-> & -> & [[-> HI]|(-> & HI & Hnear)]); rewrite HI; [done|].
    by rewrite decide_True.
Qed.
End MinusClassification.

Lemma scenario_exons_disjoint s : disjoint_ascending (scenario_exons s).
Proof. intros i Hi. simpl in Hi. destruct i as [|i]; simpl; lia. Qed.

Lemma mirrored_scenario_exons_disjoint :
  disjoint_descending (mirror_transcript (scenario_exons "+")).
Proof. intros i Hi. simpl in Hi. destruct i as [|i]; simpl; lia. Qed.





(** ** Translation of the coordinates *)

Lemma shift_lookup d (exons : list BED) i :
  (i < length exons)%nat →
  (shift_exon d <$> exons) !!! i = shift_exon d (exons !!! i).
Proof. apply list_lookup_total_fmap. Qed.

Lemma last_index_shift d exons :
  last_index (shift_exon d <$> exons) = last_index exons.
Proof. unfold last_index. by rewrite length_fmap. Qed.

Lemma set_result_shift d u a b a' b' label :
  Z.min a' b' = Z.min a b →
  set_result (shift_variant d u) a' b' label = shift_variant d (set_result u a b label).
Proof. intros Heq. unfold set_result, set_annotation, set_score. simpl. by rewrite Heq. Qed.

Lemma cis_limits_shift d exons u i :
  (i < length exons)%nat →
  set_variant_cis_effect_limits (shift_exon d <$> exons) (shift_variant d u) i
  = shift_variant d (set_variant_cis_effect_limits exons u i).
Proof.
  intros Hi.
  assert (0 < length exons)%nat as Hne by lia.
  rewrite !cis_limits_closed_form
    by (rewrite ?last_index_shift; unfold last_index; lia).
  unfold cis_limits_at, exon_before, exon_after.
  rewrite last_index_shift, !shift_lookup by (unfold last_index; lia).
  simpl. repeat case_decide; simpl; try done;
    apply variant_eq; simpl; try done; lia.
Qed.

Ltac settle_shift :=
  first [ done
        | exfalso; lia
        | f_equal; erewrite set_result_shift;
          [rewrite ?cis_limits_shift by done; reflexivity | lia] ].

Section Shift.
Variable self : VariantsAnnotator.
Variable exons : list BED.
Variable u : AnnotatedVariant.
Variable d : Z.
Variable i : nat.
Hypothesis Hi : (i < length exons)%nat.

Local Abbreviation shifted := (shift_exon d <$> exons).

Lemma shift_lookup_prev :
  shifted !!! (i - 1)%nat = shift_exon d (exons !!! (i - 1)%nat).
Proof. apply shift_lookup. lia. Qed.

Lemma shift_lookup_next :
  i ≠ last_index exons →
  shifted !!! (i + 1)%nat = shift_exon d (exons !!! (i + 1)%nat).
Proof. unfold last_index. intros. apply shift_lookup. lia. Qed.

Lemma whole_space_shift :
  ps_whole_space self shifted (shift_variant d u) i
  = shift_variant d <$> ps_whole_space self exons u i ∧
  ns_whole_space self shifted (shift_variant d u) i
  = shift_variant d <$> ns_whole_space self exons u i.
Proof.
  unfold ps_whole_space, ns_whole_space.
  rewrite last_index_shift, (shift_lookup d exons i Hi).
  destruct (decide (i = last_index exons)) as [Hlast|Hlast].
  - generalize (shifted !!! (i + 1)%nat) (exons !!! (i + 1)%nat).
    intros mn n. simpl.
    destruct (all_exonic_space_ self), (all_intronic_space_ self); simpl;
      split; repeat case_bool_decide; simpl; settle_shift.
  - rewrite (shift_lookup_next Hlast). simpl.
    destruct (all_exonic_space_ self), (all_intronic_space_ self); simpl;
      split; repeat case_bool_decide; simpl; settle_shift.
Qed.

Lemma rest_outside_shift :
  (ps_rest_outside self shifted (shift_variant d u) i ↔ ps_rest_outside self exons u i) ∧
  (ns_rest_outside self shifted (shift_variant d u) i ↔ ns_rest_outside self exons u i).
Proof.
  unfold ps_rest_outside, ns_rest_outside.
  rewrite (shift_lookup d exons i Hi). simpl. lia.
Qed.

Lemma ps_proximity_shift :
  ps_proximity self shifted (shift_variant d u) i
  = shift_variant d <$> ps_proximity self exons u i.
Proof.
  unfold ps_proximity.
  rewrite last_index_shift, shift_lookup_prev, (shift_lookup d exons i Hi).
  destruct (decide (i = last_index exons)) as [Hlast|Hlast].
  - generalize (shifted !!! (i + 1)%nat) (exons !!! (i + 1)%nat).
    intros mn n. simpl.
    repeat case_bool_decide; simpl; settle_shift.
  - rewrite (shift_lookup_next Hlast). simpl.
    repeat case_bool_decide; simpl; settle_shift.
Qed.

Lemma ns_proximity_shift :
  ns_proximity self shifted (shift_variant d u) i
  = shift_variant d <$> ns_proximity self exons u i.
Proof.
  unfold ns_proximity.
  rewrite last_index_shift, shift_lookup_prev, (shift_lookup d exons i Hi).
  destruct (decide (i = last_index exons)) as [Hlast|Hlast].
  - generalize (shifted !!! (i + 1)%nat) (exons !!! (i + 1)%nat).
    intros mn n. simpl.
    repeat case_bool_decide; simpl; settle_shift.
  - rewrite (shift_lookup_next Hlast). simpl.
    repeat case_bool_decide; simpl; settle_shift.
Qed.
End Shift.

Lemma ps_iteration_shift self exons u d i :
  (i < length exons)%nat →
  ps_iteration self (shift_exon d <$> exons) (shift_variant d u) i
  = shift_variant d <$> ps_iteration self exons u i.
Proof.
  intros Hi. unfold ps_iteration.
  rewrite (proj1 (whole_space_shift self exons u d i Hi)).
  destruct (ps_whole_space self exons u i); [done|]. simpl.
  pose proof (proj1 (rest_outside_shift self exons u d i Hi)) as Hr.
  destruct (decide (ps_rest_outside self (shift_exon d <$> exons) _ i)) as [Hs|Hs],
    (decide (ps_rest_outside self exons u i)) as [Ho|Ho].
  - done.
  - by apply Hr in Hs.
  - by apply Hr in Ho.
  - by apply ps_proximity_shift.
Qed.

Lemma ns_iteration_shift self exons u d i :
  (i < length exons)%nat →
  ns_iteration self (shift_exon d <$> exons) (shift_variant d u) i
  = shift_variant d <$> ns_iteration self exons u i.
Proof.
  intros Hi. unfold ns_iteration.
  rewrite (proj2 (whole_space_shift self exons u d i Hi)).
  destruct (ns_whole_space self exons u i); [done|]. simpl.
  pose proof (proj2 (rest_outside_shift self exons u d i Hi)) as Hr.
  destruct (decide (ns_rest_outside self (shift_exon d <$> exons) _ i)) as [Hs|Hs],
    (decide (ns_rest_outside self exons u i)) as [Ho|Ho].
  - done.
  - by apply Hr in Hs.
  - by apply Hr in Ho.
  - by apply ns_proximity_shift.
Qed.

Lemma scan_natural (f : AnnotatedVariant → AnnotatedVariant) body1 body2 indices u :
  (∀ i, i ∈ indices → body1 i = f <$> body2 i) →
  scan body1 indices (f u) = f (scan body2 indices u).
Proof.
  intros Hbody. induction indices as [|i rest IH]; simpl; [done|].
  rewrite (Hbody i) by left.
  destruct (body2 i); simpl; [done|].
  apply IH. intros j Hj. apply Hbody. by right.
Qed.


(** * Further properties of the aggregator *)

(** ** The bins of a record *)

Lemma elem_of_bins_between lo hi b : b ∈ bins_between lo hi ↔ lo <= b <= hi.
Proof.
  unfold bins_between. rewrite list_elem_of_fmap. split.
  - intros (k & -> & Hk). apply elem_of_seq in Hk. lia.
  - intros Hb. exists (Z.to_nat (b - lo)). split; [lia|].
    apply elem_of_seq. lia.
Qed.

Lemma elem_of_bin_candidates gtf_ chr lo hi t :
  t ∈ bin_candidates gtf_ chr lo hi ↔
  ∃ b, lo <= b <= hi ∧ t ∈ transcripts_from_bin gtf_ chr b.
Proof.
  unfold bin_candidates. rewrite list_elem_of_bind.
  split; intros (b & H1 & H2); exists b.
  - by rewrite <- elem_of_bins_between.
  - by rewrite elem_of_bins_between.
Qed.

Lemma elem_of_level_candidates gtf_ scheme chr levels start_bin end_bin t :
  0 <= _binNextShift scheme →
  t ∈ level_candidates gtf_ scheme chr levels start_bin end_bin ↔
  ∃ (n i : nat) b,
    levels !! n = Some i ∧
    (start_bin ≫ (_binNextShift scheme * Z.of_nat n))
      + _binOffsetsExtended scheme !!! i <= b
    <= (end_bin ≫ (_binNextShift scheme * Z.of_nat n))
      + _binOffsetsExtended scheme !!! i ∧
    t ∈ transcripts_from_bin gtf_ chr b.
Proof.
  intros Hnext. revert start_bin end_bin.
  induction levels as [|i rest IH]; intros start_bin end_bin; simpl.
  - split; [by intros ?%elem_of_nil|]. by intros (n & i & b & ? & _).
  - rewrite elem_of_app, elem_of_bin_candidates, IH. split.
    + intros [(b & Hb & Ht)|(n & j & b & Hn & Hb & Ht)].
      * exists 0%nat, i, b. rewrite Z.mul_0_r, !Z.shiftr_0_r. done.
      * exists (S n), j, b. split; [done|]. split; [|done].
        rewrite !Z.shiftr_shiftr in Hb by lia.
        by replace (_binNextShift scheme * Z.of_nat (S n))
          with (_binNextShift scheme + _binNextShift scheme * Z.of_nat n) by lia.
    + intros (n & j & b & Hn & Hb & Ht). destruct n as [|n]; simpl in Hn.
      * injection Hn as <-. left. exists b.
        rewrite Z.mul_0_r, !Z.shiftr_0_r in Hb. done.
      * right. exists n, j, b. split; [done|]. split; [|done].
        rewrite !Z.shiftr_shiftr by lia.
        by replace (_binNextShift scheme + _binNextShift scheme * Z.of_nat n)
          with (_binNextShift scheme * Z.of_nat (S n)) by lia.
Qed.



Lemma NoDup_first_seen items : NoDup (first_seen items).
Proof.
  induction items as [|g items IH] using rev_ind; [constructor|].
  rewrite first_seen_snoc. case_decide as Hin; [done|].
  apply NoDup_app. split; [done|]. split; [|apply NoDup_singleton].
  intros x Hx ->%list_elem_of_singleton. done.
Qed.

(** The four lists of an annotated record when no candidate is named
    "NA".  With [cs] the contributions of the candidates in the order of
    the bin traversal (a candidate that is skipped or is not splice
    relevant contributes nothing): the transcripts, the distances and
    the annotations are the comma-joined entries of [cs], one per
    contribution and in that order; the genes are the comma-joined genes
    of [cs], each once, at the place of its first occurrence; and all
    four are "NA" when nothing contributes. *)
Theorem lists_of_an_annotated_record
    (self : VariantsAnnotator) (gtf_ : GtfParser) (scheme : BinScheme)
    (chr : string) (pos : Z) (final : AnnotatedVariant) :
  "NA" ∉ candidates self gtf_ scheme chr pos →
  annotate_record_with_transcripts self gtf_ scheme chr pos = Ok final →
  let cs := omap (contribution_of self gtf_ (new_AnnotatedVariant chr pos (pos + 1)))
                 (candidates self gtf_ scheme chr pos) in
  let genes := first_seen (c_gene <$> cs) in
  lists final
  = (comma_joined genes, comma_joined (c_transcript <$> cs),
     comma_joined (c_distance <$> cs), comma_joined (c_annotation <$> cs)) ∧
  NoDup genes ∧
  (∀ g, g ∈ genes ↔ ∃ c, c ∈ cs ∧ c_gene c = g) ∧
  (cs = [] → lists final = ("NA", "NA", "NA", "NA")%string).
Proof.
  intros Hna Hrun cs genes.
  pose proof (record_lists_without_sentinel_id self gtf_ scheme chr pos final
                Hna Hrun) as Hlists.
  fold cs in Hlists. fold genes in Hlists.
  split; [done|]. split; [apply NoDup_first_seen|]. split.
  - intros g. unfold genes. rewrite elem_of_first_seen, list_elem_of_fmap.
    naive_solver.
  - intros Hnil. rewrite Hlists. unfold genes. by rewrite Hnil.
Qed.

Lemma lists_of_an_annotated_record_witness :
  lists <$> annotate_record_with_transcripts default_options
              (example_store ["T1"; "S"; "T2"]) example_scheme "1" 198
  = Ok ("G1", "T1,T2", "1,1", "splicing_exonic,splicing_exonic")%string.
Proof.
  destruct (annotate_record_with_transcripts default_options
              (example_store ["T1"; "S"; "T2"]) example_scheme "1" 198)
    as [final|e] eqn:Hrun; [|by vm_compute in Hrun].
  simpl. f_equal.
  assert ("NA" ∉ candidates default_options (example_store ["T1"; "S"; "T2"])
                   example_scheme "1" 198) as Hna.
  { apply (bool_decide_unpack _). by vm_compute. }
  rewrite (proj1 (lists_of_an_annotated_record default_options
                    (example_store ["T1"; "S"; "T2"]) example_scheme "1" 198
                    final Hna Hrun)).
  by vm_compute.
Defined.

(** ** The window of a record is a hull *)

Lemma same_update_attains exons u1 r1 u2 r2 :
  covers u1 u2 →
  same_update exons u1 r1 u2 r2 →
  (cis_effect_start r1 = cis_effect_start u1 ∨
   cis_effect_start r1 = cis_effect_start r2) ∧
  (cis_effect_end r1 = cis_effect_end u1 ∨
   cis_effect_end r1 = cis_effect_end r2).
Proof.
  intros (_ & Hs & He)
    [[-> ->]|[(a & b & label & -> & ->)|(a & b & label & i & -> & ->)]].
  - tauto.
  - simpl. tauto.
  - destruct (cis_limits_some_form exons i) as [[[lo hi]|] Hw];
      rewrite !Hw; simpl; lia.
Qed.

Section RecordWindow.
Variable self : VariantsAnnotator.
Variable gtf_ : GtfParser.

Lemma dispatch_attains exons v fresh r :
  covers v fresh →
  get_variant_overlaps_spliceregion self exons v = Ok r →
  ∃ w, get_variant_overlaps_spliceregion self exons fresh = Ok w ∧
       covers r v ∧ covers r w ∧
       (cis_effect_start r = cis_effect_start v ∨
        cis_effect_start r = cis_effect_start w) ∧
       (cis_effect_end r = cis_effect_end v ∨
        cis_effect_end r = cis_effect_end w).
Proof.
  intros Hc. unfold get_variant_overlaps_spliceregion.
  repeat case_decide; try done; intros [= <-]; eexists; (split; [done|]).
  - pose proof (classify_ps_same_update self exons v fresh (proj1 Hc)) as Hu.
    destruct (related_results exons v fresh _ _ Hu) as (_ & Hrv & Hgrow).
    split; [done|]. split; [by apply Hgrow|].
    exact (same_update_attains exons (reset_result v) _ (reset_result fresh) _
             Hc Hu).
  - pose proof (classify_ns_same_update self exons v fresh (proj1 Hc)) as Hu.
    destruct (related_results exons v fresh _ _ Hu) as (_ & Hrv & Hgrow).
    split; [done|]. split; [by apply Hgrow|].
    exact (same_update_attains exons (reset_result v) _ (reset_result fresh) _
             Hc Hu).
Qed.

Lemma hull_of_more fresh seen more v :
  hull_of self gtf_ fresh seen v →
  (∀ transcript w,
     transcript ∈ more → classified_from self gtf_ fresh transcript w →
     covers v w) →
  hull_of self gtf_ fresh (seen ++ more) v.
Proof.
  intros (Hc & Hb & Hs & He) Hmore. split; [done|]. split; [|split].
  - intros t w [Ht|Ht]%elem_of_app; [by apply Hb|by apply Hmore].
  - destruct Hs as [Hs|(t & w & Ht & Hw & Hs)]; [by left|].
    right. exists t, w. rewrite elem_of_app. tauto.
  - destruct He as [He|(t & w & Ht & Hw & He)]; [by left|].
    right. exists t, w. rewrite elem_of_app. tauto.
Qed.

Lemma annotate_transcript_hull fresh seen l transcript l' :
  annotate_transcript self gtf_ l transcript = Ok l' →
  hull_of self gtf_ fresh seen (Locals.variant l) →
  hull_of self gtf_ fresh (seen ++ [transcript]) (Locals.variant l').
Proof.
  intros [(Hskip & Hone & ->)|[Hnot Hstep]]%annotate_transcript_variant Hh.
  - apply hull_of_more; [done|].
    intros t w ->%list_elem_of_singleton [Hn _]. tauto.
  - destruct Hh as (Hc & Hb & Hs & He).
    destruct (dispatch_attains _ _ _ _ Hc Hstep)
      as (w & Hw & Hrv & Hrw & Hrs & Hre).
    assert (classified_from self gtf_ fresh transcript w) as Hcl by done.
    split; [exact (covers_trans _ _ _ Hrv Hc)|]. split; [|split].
    + intros t w' [Ht| ->%list_elem_of_singleton]%elem_of_app Hcl'.
      * exact (covers_trans _ _ _ Hrv (Hb t w' Ht Hcl')).
      * destruct Hcl' as [_ Hw']. rewrite Hw in Hw'. by injection Hw' as <-.
    + destruct Hrs as [Hrs|Hrs].
      * rewrite Hrs. destruct Hs as [Hs|(t & w' & Ht & Hw' & Hs)]; [by left|].
        right. exists t, w'. rewrite elem_of_app. tauto.
      * right. exists transcript, w. rewrite elem_of_app, list_elem_of_singleton.
        tauto.
    + destruct Hre as [Hre|Hre].
      * rewrite Hre. destruct He as [He|(t & w' & Ht & Hw' & He)]; [by left|].
        right. exists t, w'. rewrite elem_of_app. tauto.
      * right. exists transcript, w. rewrite elem_of_app, list_elem_of_singleton.
        tauto.
Qed.

Lemma for_each_hull fresh transcripts seen l l' :
  for_each (annotate_transcript self gtf_) transcripts l = Ok l' →
  hull_of self gtf_ fresh seen (Locals.variant l) →
  hull_of self gtf_ fresh (seen ++ transcripts) (Locals.variant l').
Proof.
  revert seen l. induction transcripts as [|t rest IH]; intros seen l; simpl.
  - intros [= ->]. by rewrite app_nil_r.
  - destruct (annotate_transcript self gtf_ l t) as [l1|e] eqn:Ht; [|done].
    simpl. intros Hrest Hh.
    replace (seen ++ t :: rest) with ((seen ++ [t]) ++ rest)
      by (by rewrite <- app_assoc).
    eapply IH; [done|]. by eapply annotate_transcript_hull.
Qed.
End RecordWindow.

(** The cis-effect window of an annotated record is the smallest interval
    that contains the position of the record and the windows that its
    candidate transcripts give to the fresh variant, each on its own: it
    contains all of them, and each of its two bounds is the bound of one
    of them.  So the window depends neither on the order in which the
    bins hand out the candidates nor on how often a candidate comes. *)
Theorem record_window_is_the_hull
    (self : VariantsAnnotator) (gtf_ : GtfParser) (scheme : BinScheme)
    (chr : string) (pos : Z) (final : AnnotatedVariant) :
  annotate_record_with_transcripts self gtf_ scheme chr pos = Ok final →
  let fresh := new_AnnotatedVariant chr pos (pos + 1) in
  let alone transcript w :=
    transcript ∈ candidates self gtf_ scheme chr pos ∧
    classified_from self gtf_ fresh transcript w in
  (cis_effect_start final <= pos ∧ pos + 1 <= cis_effect_end final) ∧
  (∀ transcript w,
     alone transcript w →
     cis_effect_start final <= cis_effect_start w ∧
     cis_effect_end w <= cis_effect_end final) ∧
  (cis_effect_start final = pos ∨
   ∃ transcript w,
     alone transcript w ∧ cis_effect_start final = cis_effect_start w) ∧
  (cis_effect_end final = pos + 1 ∨
   ∃ transcript w,
     alone transcript w ∧ cis_effect_end final = cis_effect_end w).
Proof.
  intros Hrun fresh alone. unfold alone.
  rewrite annotate_record_candidates in Hrun.
  destruct (for_each _ _ _) as [l_end|e] eqn:Hloop; [|done].
  simpl in Hrun. injection Hrun as <-.
  apply (for_each_hull self gtf_ fresh _ []) in Hloop.
  - destruct Hloop as ((_ & Hs0 & He0) & Hb & Hs & He). simpl in *.
    split; [done|]. split; [|split].
    + intros t w [Ht Hw]. destruct (Hb t w Ht Hw) as (_ & ? & ?). done.
    + destruct Hs as [Hs|(t & w & Ht & Hw & Hs)]; [by left|].
      right. by exists t, w.
    + destruct He as [He|(t & w & Ht & Hw & He)]; [by left|].
      right. by exists t, w.
  - split; [apply covers_refl|]. split; [by intros t w ?%elem_of_nil|].
    split; by left.
Qed.

Lemma record_window_is_the_hull_witness :
  ∃ final,
    annotate_record_with_transcripts default_options
      (example_store ["T1"; "S"; "T2"]) example_scheme "1" 198 = Ok final ∧
    cis_effect_start final <= 198 ∧ 199 <= cis_effect_end final.
Proof.
  destruct (annotate_record_with_transcripts default_options
              (example_store ["T1"; "S"; "T2"]) example_scheme "1" 198)
    as [final|e] eqn:Hrun; [|by vm_compute in Hrun].
  exists final. split; [done|].
  exact (proj1 (record_window_is_the_hull default_options
                  (example_store ["T1"; "S"; "T2"]) example_scheme "1" 198
                  final Hrun)).
Defined.

Section ParseOptionsFacts.
Variable atoi : string → Z.
Variable usage_text : string.


Lemma parse_option_accepted self c optarg :
  (∃ self', parse_option atoi usage_text self c optarg = Parsed self') ↔ accepted_option c.
Proof.
  unfold parse_option, accepted_option. rewrite !elem_of_cons, elem_of_nil.
  repeat case_decide; naive_solver.
Qed.

Lemma parse_option_raises self c optarg e :
  parse_option atoi usage_text self c optarg = Raised e ↔
  (c = "h"%char ∧ e = cmdline_help_exception usage_text) ∨
  (¬ accepted_option c ∧ c ≠ "h"%char ∧ e = error_parsing_inputs_1).
Proof.
  unfold parse_option, accepted_option. rewrite !elem_of_cons, elem_of_nil.
  repeat case_decide; subst; naive_solver.
Qed.

Lemma parse_option_file_names self c optarg self' :
  parse_option atoi usage_text self c optarg = Parsed self' →
  vcf_ self' = vcf_ self ∧ gtffile_ self' = gtffile_ self.
Proof. unfold parse_option. repeat case_decide; by intros [= <-]. Qed.

Lemma parse_option_loop_snoc self returned c optarg :
  parse_option_loop atoi usage_text self (returned ++ [(c, optarg)])
  = match parse_option_loop atoi usage_text self returned with
    | Parsed self' => parse_option atoi usage_text self' c optarg
    | Raised e => Raised e
    end.
Proof.
  revert self. induction returned as [|[c' a'] rest IH]; intros self; simpl.
  - by destruct (parse_option atoi usage_text self c optarg).
  - destruct (parse_option atoi usage_text self c' a'); [apply IH|done].
Qed.

Lemma parse_option_loop_parsed self returned :
  (∃ self', parse_option_loop atoi usage_text self returned = Parsed self') ↔
  Forall accepted_option returned.*1.
Proof.
  revert self. induction returned as [|[c a] rest IH]; intros self; simpl.
  - split; [constructor|eauto].
  - rewrite Forall_cons, <- (parse_option_accepted self c a).
    destruct (parse_option atoi usage_text self c a) as [self1|e] eqn:H1.
    + rewrite IH. split; [split; eauto|tauto].
    + split; [by intros [? [=]]|]. by intros [[? [=]] _].
Qed.

Lemma parse_option_loop_file_names self returned self' :
  parse_option_loop atoi usage_text self returned = Parsed self' →
  vcf_ self' = vcf_ self ∧ gtffile_ self' = gtffile_ self.
Proof.
  revert self. induction returned as [|[c a] rest IH]; intros self; simpl.
  - by intros [= <-].
  - destruct (parse_option atoi usage_text self c a) as [self1|e] eqn:H1; [|done].
    intros [-> ->]%IH. by eapply parse_option_file_names.
Qed.

Lemma parse_option_loop_raises self returned e :
  parse_option_loop atoi usage_text self returned = Raised e ↔
  ∃ before c optarg after,
    returned = before ++ (c, optarg) :: after ∧
    Forall accepted_option before.*1 ∧
    ((c = "h"%char ∧ e = cmdline_help_exception usage_text) ∨
     (¬ accepted_option c ∧ c ≠ "h"%char ∧ e = error_parsing_inputs_1)).
Proof.
  revert self. induction returned as [|[c a] rest IH]; intros self; simpl.
  - split; [done|]. intros (before & ? & ? & ? & Heq & _). by destruct before.
  - destruct (parse_option atoi usage_text self c a) as [self1|e1] eqn:H1.
    + rewrite IH. split.
      * intros (before & c' & a' & after & -> & Hacc & He).
        exists ((c, a) :: before), c', a', after. split; [done|]. split; [|done].
        simpl. constructor; [|done]. apply (parse_option_accepted self c a). eauto.
      * intros (before & c' & a' & after & Heq & Hacc & He).
        destruct before as [|[c0 a0] before]; simplify_eq/=.
        { match goal with
          | H : parse_option atoi usage_text self ?c ?a = _ |- _ =>
              apply (parse_option_raises self c a) in He; congruence
          end. }
        apply Forall_cons in Hacc as [_ Hacc]. by exists before, c', a', after.
    + split.
      * intros [= ->]. exists [], c, a, rest. split; [done|]. split; [constructor|].
        by apply (parse_option_raises self c a).
      * intros (before & c' & a' & after & Heq & Hacc & He).
        destruct before as [|[c0 a0] before]; simplify_eq/=.
        { match goal with
          | H : parse_option atoi usage_text self ?c ?a = _ |- _ =>
              apply (parse_option_raises self c a) in He; congruence
          end. }
        apply Forall_cons in Hacc as [Hc0 _].
        apply (parse_option_accepted self c0 a0) in Hc0 as [? Hc0]. congruence.
Qed.

Lemma take_file_names_parsed self remaining :
  (∃ self', take_file_names self remaining = Parsed self') ↔
  file_names_given self remaining.
Proof.
  unfold take_file_names, file_names_given.
  destruct remaining as [|vcf [|gtf [|x rest]]]; cbn;
    destruct (decide _) as [Hd|Hd]; naive_solver.
Qed.

Lemma take_file_names_raises self remaining e :
  take_file_names self remaining = Raised e ↔
  e = error_parsing_inputs_2 ∧ ¬ file_names_given self remaining.
Proof.
  unfold take_file_names, file_names_given.
  destruct remaining as [|vcf [|gtf [|x rest]]]; cbn;
    destruct (decide _) as [Hd|Hd]; naive_solver.
Qed.

(** What [parse_options] does with a command line, read off what [getopt]
    returns.  It returns exactly when every option is one of
    -i -e -I -E -o -S and the file names are in place; an argument named
    like the placeholder is refused as if it were missing.  It throws the
    help exception, with the usage text, exactly when -h comes before any
    other character that is not an option; the first error when such a
    character comes before any -h; the second error when the options are
    fine and the file names are not in place. *)
Theorem parse_options_outcome
    (self : CommandLine) (returned : list (ascii * string))
    (remaining : list string) :
  ((∃ self', parse_options atoi usage_text self returned remaining = Parsed self') ↔
   Forall accepted_option returned.*1 ∧ file_names_given self remaining) ∧
  (∀ text,
     parse_options atoi usage_text self returned remaining
     = Raised (cmdline_help_exception text) ↔
     text = usage_text ∧
     ∃ before optarg after,
       returned = before ++ ("h"%char, optarg) :: after ∧
       Forall accepted_option before.*1) ∧
  (parse_options atoi usage_text self returned remaining
   = Raised error_parsing_inputs_1 ↔
   ∃ before c optarg after,
     returned = before ++ (c, optarg) :: after ∧
     Forall accepted_option before.*1 ∧ ¬ accepted_option c ∧ c ≠ "h"%char) ∧
  (parse_options atoi usage_text self returned remaining
   = Raised error_parsing_inputs_2 ↔
   Forall accepted_option returned.*1 ∧ ¬ file_names_given self remaining).
Proof.
  unfold parse_options.
  pose proof (parse_option_loop_parsed self returned) as Hparsed.
  destruct (parse_option_loop atoi usage_text self returned) as [self1|e1] eqn:Hloop.
  - assert (Forall accepted_option returned.*1) as Hacc by (apply Hparsed; eauto).
    assert (file_names_given self1 remaining ↔ file_names_given self remaining)
      as Hsame.
    { apply parse_option_loop_file_names in Hloop as [Hv Hg].
      unfold file_names_given. by rewrite Hv, Hg. }
    assert (∀ e, ¬ ∃ before c optarg after,
               returned = before ++ (c, optarg) :: after ∧
               Forall accepted_option before.*1 ∧
               ((c = "h"%char ∧ e = cmdline_help_exception usage_text) ∨
                (¬ accepted_option c ∧ c ≠ "h"%char ∧ e = error_parsing_inputs_1)))
      as Hnone.
    { intros e He. apply (parse_option_loop_raises self) in He. congruence. }
    rewrite take_file_names_parsed, <- Hsame.
    split; [tauto|]. split; [|split].
    + intros text. rewrite take_file_names_raises. split; [by intros [[=] _]|].
      intros (-> & before & optarg & after & Heq & Hb). exfalso.
      apply (Hnone (cmdline_help_exception usage_text)).
      exists before, "h"%char, optarg, after. tauto.
    + rewrite take_file_names_raises. split; [by intros [[=] _]|].
      intros (before & c & optarg & after & Heq & Hb & Hc & Hh). exfalso.
      apply (Hnone error_parsing_inputs_1).
      exists before, c, optarg, after. tauto.
    + rewrite take_file_names_raises. tauto.
  - assert (¬ Forall accepted_option returned.*1) as Hacc.
    { intros Hall. apply Hparsed in Hall as [? [=]]. }
    apply parse_option_loop_raises in Hloop
      as (before & c & optarg & after & Heq & Hb & He).
    assert (∀ e, parse_option_loop atoi usage_text self returned = Raised e → e = e1) as Huniq.
    { intros e He'. assert (parse_option_loop atoi usage_text self returned = Raised e1) as H1.
      { apply parse_option_loop_raises. by exists before, c, optarg, after. }
      congruence. }
    split; [split; [by intros [? [=]]|tauto]|]. split; [|split].
    + intros text. split.
      * intros [= ->]. destruct He as [[-> [= ->]]|(_ & _ & [=])].
        split; [done|]. by exists before, optarg, after.
      * intros (-> & before' & optarg' & after' & Heq' & Hb').
        f_equal. symmetry. apply Huniq. apply parse_option_loop_raises.
        exists before', "h"%char, optarg', after'. tauto.
    + split.
      * intros [= ->]. destruct He as [[_ [=]]|(Hc & Hh & _)].
        by exists before, c, optarg, after.
      * intros (before' & c' & optarg' & after' & Heq' & Hb' & Hc' & Hh').
        f_equal. symmetry. apply Huniq. apply parse_option_loop_raises.
        exists before', c', optarg', after'. tauto.
    + split; [|tauto]. intros [= ->]. destruct He as [[_ [=]]|(_ & _ & [=])].
Qed.

Lemma last_argument_snoc c' returned c optarg :
  last_argument c' (returned ++ [(c, optarg)])
  = if decide (c = c') then Some optarg else last_argument c' returned.
Proof.
  unfold last_argument. rewrite filter_app, filter_cons, filter_nil. simpl.
  case_decide; [|by rewrite app_nil_r]. by rewrite last_snoc.
Qed.

Lemma given_snoc c' returned c optarg :
  given c' (returned ++ [(c, optarg)])
  = given c' returned || bool_decide (c = c').
Proof.
  unfold given. rewrite fmap_app. simpl.
  rewrite <- bool_decide_or. apply bool_decide_ext.
  rewrite elem_of_app, list_elem_of_singleton. naive_solver.
Qed.

Lemma parse_option_loop_closed_form self returned self' :
  parse_option_loop atoi usage_text self returned = Parsed self' →
  intronic_min_distance_ (options self')
  = default (intronic_min_distance_ (options self))
      (atoi <$> last_argument "i" returned) ∧
  exonic_min_distance_ (options self')
  = default (exonic_min_distance_ (options self))
      (atoi <$> last_argument "e" returned) ∧
  all_intronic_space_ (options self')
  = all_intronic_space_ (options self) || given "I" returned ∧
  all_exonic_space_ (options self')
  = all_exonic_space_ (options self) || given "E" returned ∧
  skip_single_exon_genes_ (options self')
  = skip_single_exon_genes_ (options self) && negb (given "S" returned) ∧
  vcf_out_ self' = default (vcf_out_ self) (last_argument "o" returned).
Proof.
  revert self'. induction returned as [|[c a] returned IH] using rev_ind;
    intros self'.
  - intros [= <-]. cbn. by rewrite !orb_false_r, andb_true_r.
  - rewrite parse_option_loop_snoc.
    destruct (parse_option_loop atoi usage_text self returned) as [self1|] eqn:Hloop; [|done].
    destruct (IH self1 eq_refl) as (Hi & He & HI & HE & HS & Ho).
    rewrite !last_argument_snoc, !given_snoc.
    unfold parse_option.
    repeat case_decide; intros [= <-]; subst c; simpl;
      rewrite ?decide_True by done; rewrite ?decide_False by done;
      rewrite ?bool_decide_eq_true_2 by done;
      rewrite ?bool_decide_eq_false_2 by done;
      rewrite ?orb_false_r, ?orb_true_r, ?andb_true_r, ?andb_false_r; simpl;
      done.
Qed.

End ParseOptionsFacts.


